(** * Matchmaking and signaling relay: PeerManager and SignalingService

    A shallow embedding of [services/peer-manager.ts] (class [PeerManager])
    and [services/signaling.ts] (class [SignalingService]), with the
    properties of the waiting queue, of pairing and of message relay. *)

From stdpp Require Import gmap strings list fin_maps.

Open Scope string_scope.
Open Scope list_scope.

(** ** Data model *)

(** [ws.readyState] of the [ws] library. *)
Inductive ReadyState := CONNECTING | OPEN | CLOSING | CLOSED.

#[global] Instance ReadyState_eq_dec : EqDecision ReadyState.
Proof. solve_decision. Defined.

(** A [WebSocket] object is a shared reference; it is modelled by a handle.
    Its [readyState] is changed by the transport, not by the code under
    study, so every operation reads it from the socket table of the moment
    it runs in. *)
Definition WebSocket := nat.
Definition Sockets := WebSocket → ReadyState.

(** [interface Client]. An absent [partnerId] (undefined) is [None]. *)
Record Client := mkClient {
  id : string;
  ws : WebSocket;
  partnerId : option string;
  isWaiting : bool
}.

#[global] Instance Client_eq_dec : EqDecision Client.
Proof. solve_decision. Defined.

(** The two private fields of [class PeerManager]. *)
Record PeerManager := mkPeerManager {
  clients : gmap string Client;
  waitingQueue : list string
}.

Definition newPeerManager : PeerManager :=
  {| clients := ∅; waitingQueue := [] |}.

(** Inbound protocol message ([message: any], a parsed JSON object): the
    [type] field the router switches on, the [message] field read for a
    chat message, and the remaining fields as an opaque payload. *)
Record Message := mkMessage {
  type : string;
  message : string;
  payload : string
}.

(** Outbound frames, the arguments of [JSON.stringify] in the source. *)
Inductive Frame :=
  | PartnerDisconnected
  | PartnerFound (partner : string)
  | WaitingForPartner
  | Relay (m : Message)
  | ChatMessage (text : string) (timestamp : string).

(** One call of [ws.send(frame)]. *)
Definition Sent : Type := WebSocket * Frame.

(** ** JavaScript helpers *)

(** Truthiness of a [string | undefined | null] value: the empty string is
    falsy. [truthy s] is the string when [if (s)] takes its branch. *)
Definition truthy (s : option string) : option string :=
  match s with
  | Some EmptyString => None
  | Some p => Some p
  | None => None
  end.

(** [c?.ws.readyState === WebSocket.OPEN] *)
Definition isOpen (σ : Sockets) (c : option Client) : bool :=
  match c with
  | Some c => bool_decide (σ (ws c) = OPEN)
  | None => false
  end.

(** [Array.prototype.includes] *)
Definition includes (x : string) (l : list string) : bool :=
  bool_decide (x ∈ l).

(** [Array.prototype.indexOf]: index of the first occurrence, or -1. *)
Fixpoint indexOf_from (x : string) (l : list string) (i : Z) : Z :=
  match l with
  | [] => (-1)%Z
  | y :: l' => if bool_decide (y = x) then i else indexOf_from x l' (i + 1)%Z
  end.

Definition indexOf (l : list string) (x : string) : Z := indexOf_from x l 0.

(** [Array.prototype.splice(start, deleteCount)] for [0 <= start], the
    array left behind. *)
Definition splice (l : list string) (start : Z) (deleteCount : nat) : list string :=
  take (Z.to_nat start) l ++ drop (Z.to_nat start + deleteCount) l.

(** Field assignments on a client object. *)
Definition set_isWaiting (b : bool) (c : Client) : Client :=
  {| id := id c; ws := ws c; partnerId := partnerId c; isWaiting := b |}.

Definition set_partner (p : option string) (c : Client) : Client :=
  {| id := id c; ws := ws c; partnerId := p; isWaiting := false |}.

(** [x.partnerId = undefined; x.isWaiting = false] *)
Definition reset_client : Client → Client := set_partner None.

(** ** PeerManager *)

Definition addClient (cid : string) (w : WebSocket) (pm : PeerManager) : PeerManager :=
  {| clients := <[cid := {| id := cid; ws := w; partnerId := None; isWaiting := false |}]> (clients pm);
     waitingQueue := waitingQueue pm |}.

Definition getClient (cid : string) (pm : PeerManager) : option Client :=
  clients pm !! cid.

Definition getPartner (clientId : string) (pm : PeerManager) : option Client :=
  match clients pm !! clientId with
  | Some client =>
      match truthy (partnerId client) with
      | Some p => clients pm !! p
      | None => None
      end
  | None => None
  end.

(** The queue after the "Remove from waiting queue" block of [removeClient]. *)
Definition removeFromQueue (cid : string) (q : list string) : list string :=
  let waitingIndex := indexOf q cid in
  if (waitingIndex >? -1)%Z then splice q waitingIndex 1 else q.

Definition removeClient (σ : Sockets) (cid : string) (pm : PeerManager)
  : PeerManager * list Sent :=
  match clients pm !! cid with
  | Some client =>
      (* Notify partner if exists *)
      let '(cl, out) :=
        match truthy (partnerId client) with
        | Some p =>
            match clients pm !! p with
            | Some partner =>
                if isOpen σ (Some partner)
                then (alter reset_client p (clients pm), [(ws partner, PartnerDisconnected)])
                else (clients pm, [])
            | None => (clients pm, [])
            end
        | None => (clients pm, [])
        end in
      ({| clients := delete cid cl;
          waitingQueue := removeFromQueue cid (waitingQueue pm) |}, out)
  | None => (pm, [])
  end.

(** The first block of [findPartner]: "Add to waiting queue if not already
    waiting". *)
Definition enqueue (clientId : string) (client : Client) (pm : PeerManager) : PeerManager :=
  if negb (isWaiting client) && negb (includes clientId (waitingQueue pm))
  then {| clients := alter (set_isWaiting true) clientId (clients pm);
          waitingQueue := waitingQueue pm ++ [clientId] |}
  else pm.

(** [availableClients]: the queue entries other than the caller whose
    client is registered with an open socket. *)
Definition available (σ : Sockets) (clientId : string) (pm : PeerManager) : list string :=
  List.filter
    (λ x, bool_decide (x ≠ clientId) && isOpen σ (clients pm !! x))
    (waitingQueue pm).

Definition findPartner (σ : Sockets) (clientId : string) (pm : PeerManager)
  : option string * PeerManager :=
  match clients pm !! clientId with
  | None => (None, pm)
  | Some client =>
      let pm1 := enqueue clientId client pm in
      match available σ clientId pm1 with
      | partner :: _ =>
          match clients pm1 !! partner with
          | Some _ =>
              (Some partner,
               {| clients :=
                    alter (set_partner (Some clientId)) partner
                      (alter (set_partner (Some partner)) clientId (clients pm1));
                  waitingQueue :=
                    List.filter
                      (λ x, bool_decide (x ≠ clientId) && bool_decide (x ≠ partner))
                      (waitingQueue pm1) |})
          | None => (None, pm1)
          end
      | [] => (None, pm1)
      end
  end.

Definition disconnectPartners (σ : Sockets) (clientId : string) (pm : PeerManager)
  : PeerManager * list Sent :=
  match clients pm !! clientId with
  | Some client =>
      match truthy (partnerId client) with
      | Some p =>
          let '(cl, out) :=
            match clients pm !! p with
            | Some partner =>
                (alter reset_client p (clients pm),
                 if isOpen σ (Some partner)
                 then [(ws partner, PartnerDisconnected)] else [])
            | None => (clients pm, [])
            end in
          ({| clients := alter reset_client clientId cl;
              waitingQueue := waitingQueue pm |}, out)
      | None => (pm, [])
      end
  | None => (pm, [])
  end.

Definition getWaitingCount (pm : PeerManager) : nat := length (waitingQueue pm).

(** ** SignalingService *)

Definition handleFindPartner (σ : Sockets) (clientId : string) (w : WebSocket)
    (pm : PeerManager) : PeerManager * list Sent :=
  let '(r, pm') := findPartner σ clientId pm in
  match truthy r with
  | Some partner =>
      match getClient partner pm' with
      | Some pc =>
          if isOpen σ (Some pc)
          then (pm', [(w, PartnerFound partner); (ws pc, PartnerFound clientId)])
          else (pm', [])
      | None => (pm', [])
      end
  | None => (pm', [(w, WaitingForPartner)])
  end.

Definition forwardToPartner (σ : Sockets) (clientId : string) (m : Message)
    (pm : PeerManager) : list Sent :=
  match getPartner clientId pm with
  | Some partner => if isOpen σ (Some partner) then [(ws partner, Relay m)] else []
  | None => []
  end.

(** [now] is [new Date().toISOString()] at the time of the call. *)
Definition forwardChatMessage (σ : Sockets) (now : string) (clientId : string)
    (messageText : string) (pm : PeerManager) : list Sent :=
  match getPartner clientId pm with
  | Some partner =>
      if isOpen σ (Some partner) then [(ws partner, ChatMessage messageText now)] else []
  | None => []
  end.

Definition handleEndChat (σ : Sockets) (clientId : string) (pm : PeerManager)
  : PeerManager * list Sent :=
  disconnectPartners σ clientId pm.

(** The [switch (message.type)] of [handleMessage]. *)
Definition dispatch (σ : Sockets) (now : string) (clientId : string) (w : WebSocket)
    (m : Message) (pm : PeerManager) : PeerManager * list Sent :=
  if bool_decide (type m = "find-partner") then handleFindPartner σ clientId w pm
  else if bool_decide (type m = "offer") then (pm, forwardToPartner σ clientId m pm)
  else if bool_decide (type m = "answer") then (pm, forwardToPartner σ clientId m pm)
  else if bool_decide (type m = "ice-candidate") then (pm, forwardToPartner σ clientId m pm)
  else if bool_decide (type m = "chat-message")
       then (pm, forwardChatMessage σ now clientId (message m) pm)
  else if bool_decide (type m = "end-chat") then handleEndChat σ clientId pm
  else (pm, []).

(** The state [handleMessage] dispatches in: "Ensure client is registered". *)
Definition ensureClient (clientId : string) (w : WebSocket) (pm : PeerManager) : PeerManager :=
  match getClient clientId pm with
  | Some _ => pm
  | None => addClient clientId w pm
  end.

Definition handleMessage (σ : Sockets) (now : string) (clientId : string) (w : WebSocket)
    (m : Message) (pm : PeerManager) : PeerManager * list Sent :=
  dispatch σ now clientId w m (ensureClient clientId w pm).

(** ** Sequences of operations *)

(** The operations of the registry, as the transport and the router invoke
    them. *)
Inductive Op :=
  | Register (cid : string) (w : WebSocket)
  | MatchRequest (cid : string)
  | Unregister (cid : string)
  | EndSession (cid : string).

Definition step (σ : Sockets) (o : Op) (pm : PeerManager) : PeerManager :=
  match o with
  | Register cid w => addClient cid w pm
  | MatchRequest cid => (findPartner σ cid pm).2
  | Unregister cid => (removeClient σ cid pm).1
  | EndSession cid => (disconnectPartners σ cid pm).1
  end.

(** A trace gives every operation the socket table it runs in. *)
Definition Trace := list (Sockets * Op).

Fixpoint run (t : Trace) (pm : PeerManager) : PeerManager :=
  match t with
  | [] => pm
  | (σ, o) :: t' => run t' (step σ o pm)
  end.

(** ** Properties of a registry state *)

(** The partner of a client as the code reads it: [if (c.partnerId)] takes
    its branch for a defined, non-empty string. *)
Definition partnerOf (c : Client) : option string := truthy (partnerId c).

(** An entry is eligible for [clientId] when it is another identifier
    whose client is registered with an open channel. *)
Definition eligible (σ : Sockets) (clientId : string) (pm : PeerManager) (x : string) : Prop :=
  x ≠ clientId ∧ ∃ c, clients pm !! x = Some c ∧ σ (ws c) = OPEN.

(** An entry is stale when its client is gone or its channel is not open. *)
Definition stale (σ : Sockets) (pm : PeerManager) (x : string) : Prop :=
  isOpen σ (clients pm !! x) = false.

(** Pairing is symmetric and exclusive. *)
Definition pairing_symmetric_exclusive (pm : PeerManager) : Prop :=
  ∀ a b ca cb,
    clients pm !! a = Some ca → clients pm !! b = Some cb →
    partnerId ca = Some b →
    partnerId cb = Some a ∧ (a ∉ waitingQueue pm) ∧ (b ∉ waitingQueue pm).

(** The members of the queue are the registered clients that are waiting. *)
Definition queue_is_waiting_set (pm : PeerManager) : Prop :=
  ∀ x, x ∈ waitingQueue pm ↔ ∃ c, clients pm !! x = Some c ∧ isWaiting c = true.

(** The scan of [findPartner] evicts every stale entry. *)
Definition scan_evicts_stale (σ : Sockets) (clientId : string) (pm : PeerManager) : Prop :=
  ∀ x, x ∈ waitingQueue pm → stale σ pm x →
       x ∉ waitingQueue (findPartner σ clientId pm).2.

(** A matchmaking request of a waiting or paired client leaves the members
    of the queue as they are. *)
Definition request_keeps_queue (σ : Sockets) (clientId : string) (pm : PeerManager) : Prop :=
  ∀ c, clients pm !! clientId = Some c →
       (isWaiting c = true ∨ is_Some (partnerId c)) →
       ∀ x, x ∈ waitingQueue (findPartner σ clientId pm).2 ↔ x ∈ waitingQueue pm.

(** The state invariant behind symmetric pairing and queue membership. *)
Record Inv (pm : PeerManager) : Prop := mkInv {
  inv_nodup : NoDup (waitingQueue pm);
  inv_queue : queue_is_waiting_set pm;
  inv_pair : ∀ a ca b,
      clients pm !! a = Some ca → partnerId ca = Some b →
      isWaiting ca = false ∧ a ≠ b ∧
      ∀ cb, clients pm !! b = Some cb → partnerId cb = Some a
}.

(** The discipline under which the invariant holds: an identifier is
    registered only while it is neither registered nor still named as a
    partner, and only a client without a partner asks for a match. *)
Definition admissible (pm : PeerManager) (o : Op) : bool :=
  match o with
  | Register cid _ =>
      bool_decide (clients pm !! cid = None) &&
      bool_decide (map_Forall (λ _ c, partnerId c ≠ Some cid) (clients pm))
  | MatchRequest cid =>
      match clients pm !! cid with
      | Some c => bool_decide (partnerId c = None)
      | None => true
      end
  | Unregister _ => true
  | EndSession _ => true
  end.

Fixpoint admissible_trace (t : Trace) (pm : PeerManager) : bool :=
  match t with
  | [] => true
  | (σ, o) :: t' => admissible pm o && admissible_trace t' (step σ o pm)
  end.

(** The state after a match of [cid] with [p]. *)
Definition matched (cid p : string) (c : Client) (pm : PeerManager) : PeerManager :=
  {| clients :=
       alter (set_partner (Some cid)) p
         (alter (set_partner (Some p)) cid (clients (enqueue cid c pm)));
     waitingQueue :=
       List.filter (λ x, bool_decide (x ≠ cid) && bool_decide (x ≠ p)) (waitingQueue pm) |}.

(** ** Concrete scenarios *)

Definition allOpen : Sockets := λ _, OPEN.

(** Socket [w] has closed, the others are open. *)
Definition closedAt (w : WebSocket) : Sockets :=
  λ w', if bool_decide (w' = w) then CLOSED else OPEN.

(** a and b are paired. *)
Definition paired_ab : PeerManager :=
  run [(allOpen, Register "a" 1); (allOpen, Register "b" 2);
       (allOpen, MatchRequest "a"); (allOpen, MatchRequest "b")] newPeerManager.

(** a and b are paired, c waits, then a asks for a match again. *)
Definition trace_rematch : Trace :=
  [(allOpen, Register "a" 1); (allOpen, Register "b" 2); (allOpen, Register "c" 3);
   (allOpen, MatchRequest "a"); (allOpen, MatchRequest "b");
   (allOpen, MatchRequest "c"); (allOpen, MatchRequest "a")].

(** a and b are paired, a asks for a match again, then b disconnects. *)
Definition trace_requeue : Trace :=
  [(allOpen, Register "a" 1); (allOpen, Register "b" 2);
   (allOpen, MatchRequest "a"); (allOpen, MatchRequest "b");
   (allOpen, MatchRequest "a"); (allOpen, Unregister "b")].

(** An admissible run: a and b are paired, a ends the session and waits
    again, c is paired with a, b's socket closes and then c disconnects. *)
Definition trace_sessions : Trace :=
  [(allOpen, Register "a" 1); (allOpen, Register "b" 2);
   (allOpen, MatchRequest "a"); (allOpen, MatchRequest "b");
   (allOpen, EndSession "a"); (allOpen, MatchRequest "a");
   (allOpen, Register "c" 3); (allOpen, MatchRequest "c");
   (closedAt 2, MatchRequest "b"); (closedAt 2, Unregister "c")].

(** s waits in the queue; its socket is 1. *)
Definition waiting_s : PeerManager :=
  run [(allOpen, Register "s" 1); (allOpen, Register "c" 2);
       (allOpen, MatchRequest "s")] newPeerManager.

(** a, then b, wait behind a stale entry s (socket 1); d is idle. *)
Definition queue_sab : PeerManager :=
  {| clients :=
       <["s" := mkClient "s" 1 None true]>
       (<["a" := mkClient "a" 2 None true]>
       (<["b" := mkClient "b" 3 None true]>
       (<["d" := mkClient "d" 4 None false]> ∅)));
     waitingQueue := ["s"; "a"; "b"] |}.

Definition offer : Message := mkMessage "offer" EmptyString "sdp".
Definition find_partner : Message := mkMessage "find-partner" EmptyString EmptyString.

(** ** The connection handler of the server (routes) *)

(** What [JSON.parse(data.toString())] makes of an inbound frame: it
    throws, it yields [null] (on which [message.type] throws inside
    [handleMessage], after the sender was registered), or it yields a
    value whose [type] is read by the switch. *)
Inductive Inbound :=
  | Unparsable
  | JsonNull
  | Json (m : Message).

(** Frames the server writes: the confirmation of a connection and the
    frames of the signaling service. *)
Inductive ServerFrame :=
  | Connected (clientId : string)
  | Signal (f : Frame).

(** The events of one connection: [wss.on('connection')], [ws.on('message')]
    and [ws.on('close')]. *)
Inductive Event :=
  | Connection (clientId : string) (w : WebSocket)
  | OnMessage (clientId : string) (w : WebSocket) (data : Inbound)
  | OnClose (clientId : string).

Definition wire (out : list Sent) : list (WebSocket * ServerFrame) :=
  map (λ s, (s.1, Signal s.2)) out.

(** One event handled to completion; the [try]/[catch] around
    [handleMessage] swallows what [JSON.parse] or the handler throws and
    keeps the effects made before. *)
Definition serve (σ : Sockets) (now : string) (ev : Event) (pm : PeerManager)
  : PeerManager * list (WebSocket * ServerFrame) :=
  match ev with
  | Connection clientId w =>
      (pm, if bool_decide (σ w = OPEN) then [(w, Connected clientId)] else [])
  | OnMessage clientId w Unparsable => (pm, [])
  | OnMessage clientId w JsonNull => (ensureClient clientId w pm, [])
  | OnMessage clientId w (Json m) =>
      ((handleMessage σ now clientId w m pm).1,
       wire (handleMessage σ now clientId w m pm).2)
  | OnClose clientId =>
      ((removeClient σ clientId pm).1, wire (removeClient σ clientId pm).2)
  end.

Fixpoint serve_all (t : list (Sockets * string * Event)) (pm : PeerManager) : PeerManager :=
  match t with
  | [] => pm
  | (σ, now, ev) :: t' => serve_all t' (serve σ now ev pm).1
  end.

(** What holds of the registry in every run: no identifier is queued
    twice, every queued identifier is registered, and every record is
    stored under its own [id]. *)
Record Sane (pm : PeerManager) : Prop := mkSane {
  sane_nodup : NoDup (waitingQueue pm);
  sane_registered : ∀ x, x ∈ waitingQueue pm → is_Some (clients pm !! x);
  sane_id : ∀ k c, clients pm !! k = Some c → id c = k
}.

Definition chat (text : string) : Message := mkMessage "chat-message" text EmptyString.
Definition end_chat : Message := mkMessage "end-chat" EmptyString EmptyString.

(** The events of two connections that are matched, talk, and part. *)
Definition session_events : list (Sockets * string * Event) :=
  [(allOpen, "t0", Connection "a" 1); (allOpen, "t1", Connection "b" 2);
   (allOpen, "t2", OnMessage "a" 1 (Json find_partner));
   (allOpen, "t3", OnMessage "b" 2 Unparsable);
   (allOpen, "t4", OnMessage "b" 2 (Json find_partner));
   (allOpen, "t5", OnMessage "a" 1 (Json (chat "hi")));
   (allOpen, "t6", OnMessage "c" 3 JsonNull);
   (closedAt 2, "t7", OnClose "b");
   (closedAt 2, "t8", OnMessage "a" 1 (Json find_partner))].

(** ** The content monitor ([services/child-safety-monitor.ts]) *)

Module ChildSafety.

Inductive ThreatLevel := none | low | medium | high | critical.
Inductive Action := allow | warn | block | disconnect.

#[global] Instance ThreatLevel_eq_dec : EqDecision ThreatLevel.
Proof. solve_decision. Defined.

#[global] Instance Action_eq_dec : EqDecision Action.
Proof. solve_decision. Defined.

(** An entry of [activeConnections]. *)
Record Connection := mkConnection {
  timestamp : Z;
  warnings : nat
}.

(** The fields of [class ChildSafetyMonitor]. A pattern is known by its
    [RegExp.prototype.test]; the patterns carry no [g] flag, so [test]
    depends on the message alone. *)
Record Monitor := mkMonitor {
  suspiciousPatterns : list (string → bool);
  reportedUsers : gset string;
  activeConnections : gmap string Connection;
  blockedContent : gset string
}.

(** The object [analyzeMessage] returns. *)
Record Analysis := mkAnalysis {
  isAllowed : bool;
  threatLevel : ThreatLevel;
  action : Action;
  reason : option string
}.

Definition levels : list ThreatLevel := [none; low; medium; high; critical].

Fixpoint indexOf_from (x : ThreatLevel) (l : list ThreatLevel) (i : Z) : Z :=
  match l with
  | [] => (-1)%Z
  | y :: l' => if bool_decide (y = x) then i else indexOf_from x l' (i + 1)%Z
  end.

(** [levels.indexOf(x)] *)
Definition levelIndex (x : ThreatLevel) : Z := indexOf_from x levels 0.

(** [levels[Math.max(currentIndex, newIndex)]]; the index is always in
    range, the default stands for [undefined]. *)
Definition escalateThreatLevel (current new_level : ThreatLevel) : ThreatLevel :=
  nth (Z.to_nat (Z.max (levelIndex current) (levelIndex new_level))) levels none.

(** The [forEach] over the patterns, started at [threatLevel]. *)
Definition scanPatterns (patterns : list (string → bool)) (message : string)
    (threatLevel : ThreatLevel) : ThreatLevel :=
  fold_left
    (λ (t : ThreatLevel) (re : string → bool),
       if re message then escalateThreatLevel t medium else t)
    patterns threatLevel.

(** [analyzeMessage]; [now] is the first value [Date.now()] returns during
    the call and [now'] the second (read only for a known connection). *)
Definition analyzeMessage (now now' : Z) (message userId : string) (mon : Monitor)
  : Analysis * Monitor :=
  let threatLevel := scanPatterns (suspiciousPatterns mon) message none in
  (* Check for rapid messaging *)
  let '(threatLevel, connections) :=
    match activeConnections mon !! userId
          return ThreatLevel * gmap string Connection with
    | Some userConnection =>
        let timeSinceLastMessage := (now - timestamp userConnection)%Z in
        if (timeSinceLastMessage <? 1000)%Z
        then (escalateThreatLevel threatLevel low,
              <[userId := mkConnection now' (warnings userConnection + 1)]>
                (activeConnections mon))
        else (threatLevel,
              <[userId := mkConnection now' (warnings userConnection)]>
                (activeConnections mon))
    | None =>
        (threatLevel, <[userId := mkConnection now 0]> (activeConnections mon))
    end in
  (* Determine action based on threat level *)
  let '(action, allowed, reason, reported) :=
    match threatLevel return Action * bool * option string * gset string with
    | none => (allow, true, None, reportedUsers mon)
    | low => (warn, true, None, reportedUsers mon)
    | medium =>
        (block, false,
         Some "Message contains potentially inappropriate content", reportedUsers mon)
    | high | critical =>
        (disconnect, false,
         Some "Serious safety violation detected", {[userId]} ∪ reportedUsers mon)
    end in
  (* Check if user has been reported before *)
  let '(action, allowed, reason) :=
    if bool_decide (userId ∈ reported)
    then (disconnect, false, Some "User has been flagged for safety violations")
    else (action, allowed, reason) in
  ({| isAllowed := allowed; threatLevel := threatLevel; action := action; reason := reason |},
   {| suspiciousPatterns := suspiciousPatterns mon;
      reportedUsers := reported;
      activeConnections := connections;
      blockedContent := blockedContent mon |}).

Definition reportUser (userId reason : string) (mon : Monitor) : Monitor :=
  {| suspiciousPatterns := suspiciousPatterns mon;
     reportedUsers := {[userId]} ∪ reportedUsers mon;
     activeConnections := activeConnections mon;
     blockedContent := blockedContent mon |}.

Definition disconnectUser (userId : string) (mon : Monitor) : Monitor :=
  {| suspiciousPatterns := suspiciousPatterns mon;
     reportedUsers := reportedUsers mon;
     activeConnections := delete userId (activeConnections mon);
     blockedContent := blockedContent mon |}.

(** [this.activeConnections.get(userId)?.warnings || 0] *)
Definition getConnectionWarnings (userId : string) (mon : Monitor) : nat :=
  match activeConnections mon !! userId with
  | Some c => warnings c
  | None => 0
  end.

Definition isUserBlocked (userId : string) (mon : Monitor) : bool :=
  bool_decide (userId ∈ reportedUsers mon).

(** The message comes less than a second after the last one of the user. *)
Definition rapid (now : Z) (userId : string) (mon : Monitor) : bool :=
  match activeConnections mon !! userId with
  | Some c => (now - timestamp c <? 1000)%Z
  | None => false
  end.

(** Some pattern matches the message. *)
Definition suspicious (message : string) (mon : Monitor) : bool :=
  existsb (λ re : string → bool, re message) (suspiciousPatterns mon).

(** A monitor with two patterns, one user seen at time 5000. *)
Definition sample : Monitor :=
  {| suspiciousPatterns := [String.eqb "phone"; String.eqb "address"];
     reportedUsers := ∅;
     activeConnections := {[ "u" := mkConnection 5000 0 ]};
     blockedContent := ∅ |}.

End ChildSafety.

(** ** Lists: membership in a filtered array, [indexOf] and [splice] *)

Lemma elem_of_List_filter (f : string → bool) (l : list string) (x : string) :
  x ∈ List.filter f l ↔ x ∈ l ∧ f x = true.
Proof. rewrite !list_elem_of_In. apply filter_In. Qed.

Lemma NoDup_List_filter (f : string → bool) (l : list string) :
  NoDup l → NoDup (List.filter f l).
Proof. rewrite !NoDup_ListNoDup. apply List.NoDup_filter. Qed.

Lemma List_filter_head (f : string → bool) (l : list string) p r :
  List.filter f l = p :: r →
  ∃ l1 l2, l = l1 ++ p :: l2 ∧ f p = true ∧ (∀ x, x ∈ l1 → f x = false).
Proof.
  induction l as [|y l IH]; simpl; [done|].
  destruct (f y) eqn:Hy.
  - intros [= -> _]. exists [], l. split_and!; [done|done|].
    intros x Hx. by apply elem_of_nil in Hx.
  - intros (l1 & l2 & -> & Hp & Hl1)%IH. exists (y :: l1), l2.
    split_and!; [done|done|].
    intros x [->|Hx]%elem_of_cons; auto.
Qed.

Lemma List_filter_skip (f : string → bool) (l1 l2 : list string) p :
  (∀ x, x ∈ l1 → f x = false) → f p = true →
  List.filter f (l1 ++ p :: l2) = p :: List.filter f l2.
Proof.
  intros Hl1 Hp. induction l1 as [|y l1 IH]; simpl.
  - by rewrite Hp.
  - rewrite (Hl1 y) by apply list_elem_of_here. apply IH.
    intros x Hx. apply Hl1. by apply list_elem_of_further.
Qed.

Lemma indexOf_from_absent x l i : x ∉ l → indexOf_from x l i = (-1)%Z.
Proof.
  revert i. induction l as [|y l IH]; intros i Hx; simpl; [done|].
  apply not_elem_of_cons in Hx as [Hne Hx].
  rewrite bool_decide_false by done. by apply IH.
Qed.

Lemma indexOf_from_first x l1 l2 i :
  x ∉ l1 → indexOf_from x (l1 ++ x :: l2) i = (i + Z.of_nat (length l1))%Z.
Proof.
  revert i. induction l1 as [|y l1 IH]; intros i Hx; simpl.
  - rewrite bool_decide_true by done. lia.
  - apply not_elem_of_cons in Hx as [Hne Hx].
    rewrite bool_decide_false by done. rewrite IH by done. lia.
Qed.

(** [removeFromQueue] deletes the first occurrence, if there is one. *)
Lemma removeFromQueue_spec x q :
  ((x ∉ q) ∧ removeFromQueue x q = q) ∨
  (∃ l1 l2, q = l1 ++ x :: l2 ∧ (x ∉ l1) ∧ removeFromQueue x q = l1 ++ l2).
Proof.
  destruct (decide (x ∈ q)) as [Hin|Hnin].
  - right. apply list_elem_of_split_l in Hin as (l1 & l2 & -> & Hl1).
    exists l1, l2. split_and!; [done|done|].
    unfold removeFromQueue, indexOf. rewrite indexOf_from_first by done.
    replace (0 + Z.of_nat (length l1) >? -1)%Z with true by (symmetry; apply Z.gtb_lt; lia).
    unfold splice. replace (Z.to_nat (0 + Z.of_nat (length l1))) with (length l1) by lia.
    rewrite take_app_length. f_equal.
    replace (length l1 + 1) with (length l1 + 1 + 0) by lia.
    rewrite <- Nat.add_assoc. rewrite drop_app_add. done.
  - left. split; [done|].
    unfold removeFromQueue, indexOf. by rewrite indexOf_from_absent.
Qed.

Lemma removeFromQueue_absent x q : x ∉ q → removeFromQueue x q = q.
Proof.
  intros Hx. destruct (removeFromQueue_spec x q) as [[_ ?]|(l1 & l2 & -> & _ & _)]; [done|].
  exfalso. apply Hx. apply elem_of_app. right. apply list_elem_of_here.
Qed.

Lemma removeFromQueue_NoDup x q : NoDup q → NoDup (removeFromQueue x q).
Proof.
  intros Hnd. destruct (removeFromQueue_spec x q) as [[_ ->]|(l1 & l2 & -> & _ & ->)]; [done|].
  apply NoDup_app in Hnd as (H1 & H2 & H3%NoDup_cons).
  apply NoDup_app. split_and!; [done| |by destruct H3].
  intros y Hy Hy2. apply (H2 y Hy). by apply list_elem_of_further.
Qed.

Lemma elem_of_removeFromQueue x q y :
  NoDup q → y ∈ removeFromQueue x q ↔ y ∈ q ∧ y ≠ x.
Proof.
  intros Hnd. destruct (removeFromQueue_spec x q) as [[Hx ->]|(l1 & l2 & -> & Hl1 & ->)].
  - split; [|by intros [? _]]. intros Hy. split; [done|]. by intros ->.
  - apply NoDup_app in Hnd as (H1 & H2 & [H3 H4]%NoDup_cons).
    rewrite !elem_of_app, elem_of_cons. split.
    + intros [Hy|Hy].
      * split; [by left|]. by intros ->.
      * split; [by right; right|]. by intros ->.
    + intros [[Hy|[->|Hy]] Hne]; [by left|done|by right].
Qed.

(** ** Truthiness of [partnerId] *)

Lemma truthy_Some o p : truthy o = Some p → o = Some p.
Proof. destruct o as [[|]|]; simpl; congruence. Qed.

(** [if (c.partnerId)] takes its branch exactly for a defined, non-empty
    identifier. *)
Lemma partnerOf_Some c p :
  partnerOf c = Some p ↔ partnerId c = Some p ∧ p ≠ EmptyString.
Proof.
  unfold partnerOf. split.
  - intros H. split; [by apply truthy_Some|].
    intros ->. apply truthy_Some in H as H'. rewrite H' in H. discriminate H.
  - intros [-> Hne]. by destruct p.
Qed.

Lemma partnerOf_None c :
  partnerOf c = None ↔ partnerId c = None ∨ partnerId c = Some EmptyString.
Proof.
  unfold partnerOf. destruct (partnerId c) as [[|a p]|]; simpl; split; intros H;
    try done; try (by left); try (by right); destruct H; done.
Qed.

(** ** Unregistering *)

Lemma removeClient_unknown σ cid pm :
  clients pm !! cid = None → removeClient σ cid pm = (pm, []).
Proof. intros H. unfold removeClient. by rewrite H. Qed.

Lemma removeClient_lookup_self σ cid pm :
  clients (removeClient σ cid pm).1 !! cid = None.
Proof.
  unfold removeClient. destruct (clients pm !! cid) as [client|] eqn:Hc; [|done].
  destruct (truthy (partnerId client)) as [p|]; simpl.
  - destruct (clients pm !! p) as [partner|]; simpl.
    + destruct (bool_decide (σ (ws partner) = OPEN)); simpl; apply lookup_delete_eq.
    + apply lookup_delete_eq.
  - apply lookup_delete_eq.
Qed.

(** C9. [removeClient] on an identifier that is not registered returns the
    registry and the queue as they were and sends nothing; the function is
    total, so it never throws. A second call for the same identifier, in
    whatever state the sockets are by then, is therefore a no-op. *)
Theorem removeClient_idempotent σ σ' cid pm :
  (clients pm !! cid = None → removeClient σ cid pm = (pm, [])) ∧
  removeClient σ' cid (removeClient σ cid pm).1 = ((removeClient σ cid pm).1, []).
Proof.
  split.
  - apply removeClient_unknown.
  - apply removeClient_unknown, removeClient_lookup_self.
Qed.

Lemma removeClient_idempotent_witness :
  (clients paired_ab !! "z" = None ∧ removeClient allOpen "z" paired_ab = (paired_ab, [])) ∧
  removeClient (closedAt 2) "a" (removeClient allOpen "a" paired_ab).1
  = ((removeClient allOpen "a" paired_ab).1, []).
Proof.
  destruct (removeClient_idempotent allOpen (closedAt 2) "z" paired_ab) as [H1 _].
  destruct (removeClient_idempotent allOpen (closedAt 2) "a" paired_ab) as [_ H2].
  split; [split; [reflexivity | apply H1; reflexivity] | exact H2].
Defined.

(** C2, the failing input: a and b are paired and b's socket has closed
    when a is unregistered. The partner's record is left as it was, with
    [partnerId] still naming a, and nothing is sent. *)
Theorem removeClient_closed_partner_keeps_pairing :
  clients paired_ab !! "a" = Some (mkClient "a" 1 (Some "b") false) ∧
  clients paired_ab !! "b" = Some (mkClient "b" 2 (Some "a") false) ∧
  removeClient (closedAt 2) "a" paired_ab
  = ({| clients := {[ "b" := mkClient "b" 2 (Some "a") false ]}; waitingQueue := [] |}, []).
Proof. by vm_compute. Qed.

(** On the sibling path the partner is reset whatever its socket's state. *)
Lemma disconnectPartners_closed_partner_resets :
  disconnectPartners (closedAt 2) "a" paired_ab
  = ({| clients := <["a" := mkClient "a" 1 None false]>
                     {[ "b" := mkClient "b" 2 None false ]};
        waitingQueue := [] |}, []).
Proof. by vm_compute. Qed.

Lemma removeClient_partner_not_open σ a b ca cb pm :
  clients pm !! a = Some ca → partnerOf ca = Some b → a ≠ b →
  clients pm !! b = Some cb → σ (ws cb) ≠ OPEN →
  clients (removeClient σ a pm).1 !! b = Some cb ∧ (removeClient σ a pm).2 = [].
Proof.
  intros Ha Hp Hne Hb Hclosed. unfold removeClient, partnerOf in *.
  rewrite Ha, Hp, Hb. simpl. rewrite bool_decide_false by done. simpl.
  by rewrite lookup_delete_ne.
Qed.

(** X5. When the client being unregistered has a partner whose socket is
    open, the partner is sent [partner-disconnected] and its record is
    reset ([partnerId] undefined, [isWaiting] false). *)
Lemma removeClient_partner_open σ a b ca cb pm :
  clients pm !! a = Some ca → partnerOf ca = Some b → a ≠ b →
  clients pm !! b = Some cb → σ (ws cb) = OPEN →
  clients (removeClient σ a pm).1 !! b = Some (reset_client cb) ∧
  (removeClient σ a pm).2 = [(ws cb, PartnerDisconnected)].
Proof.
  intros Ha Hp Hne Hb Hopen. unfold removeClient, partnerOf in *.
  rewrite Ha, Hp, Hb. simpl. rewrite bool_decide_true by done. simpl.
  rewrite lookup_delete_ne by done. by rewrite lookup_alter_eq, Hb.
Qed.

(** ** Ending a session *)

(** C8. [disconnectPartners] on a client whose [partnerId] is set (a
    non-empty identifier, as the code tests it) to a registered partner
    resets [partnerId] and [isWaiting] of both records, keeps every other
    record, the set of registered identifiers and the queue, and sends the
    partner a notification exactly when its socket is open. On a client
    that is not registered or has no [partnerId] set it returns the state
    unchanged and sends nothing. *)
Theorem disconnectPartners_teardown σ a pm :
  (∀ ca b cb,
      clients pm !! a = Some ca → partnerOf ca = Some b → clients pm !! b = Some cb →
      clients (disconnectPartners σ a pm).1 !! a = Some (reset_client ca) ∧
      clients (disconnectPartners σ a pm).1 !! b = Some (reset_client cb) ∧
      (∀ x, x ≠ a → x ≠ b →
            clients (disconnectPartners σ a pm).1 !! x = clients pm !! x) ∧
      dom (clients (disconnectPartners σ a pm).1) = dom (clients pm) ∧
      waitingQueue (disconnectPartners σ a pm).1 = waitingQueue pm ∧
      (disconnectPartners σ a pm).2
      = if bool_decide (σ (ws cb) = OPEN) then [(ws cb, PartnerDisconnected)] else []) ∧
  ((∀ ca, clients pm !! a = Some ca → partnerOf ca = None) →
   disconnectPartners σ a pm = (pm, [])).
Proof.
  split.
  - intros ca b cb Ha Hp Hb. unfold disconnectPartners, partnerOf in *.
    rewrite Ha, Hp, Hb. simpl. split_and!.
    + destruct (decide (a = b)) as [<-|Hne].
      * rewrite !lookup_alter_eq, Ha. simpl. by simplify_eq.
      * rewrite lookup_alter_eq, lookup_alter_ne, Ha by done. done.
    + destruct (decide (a = b)) as [<-|Hne].
      * rewrite !lookup_alter_eq, Ha. simpl. by simplify_eq.
      * rewrite lookup_alter_ne, lookup_alter_eq, Hb by done. done.
    + intros x Hxa Hxb. by rewrite !lookup_alter_ne.
    + apply set_eq. intros x. rewrite !elem_of_dom, !lookup_alter_is_Some. done.
    + done.
    + done.
  - intros Hnone. unfold disconnectPartners.
    destruct (clients pm !! a) as [ca|] eqn:Ha; [|done].
    specialize (Hnone ca eq_refl). unfold partnerOf in Hnone. by rewrite Hnone.
Qed.

Lemma disconnectPartners_teardown_witness :
  clients (disconnectPartners allOpen "a" paired_ab).1 !! "a" = Some (mkClient "a" 1 None false) ∧
  clients (disconnectPartners allOpen "a" paired_ab).1 !! "b" = Some (mkClient "b" 2 None false) ∧
  (disconnectPartners allOpen "a" paired_ab).2 = [(2, PartnerDisconnected)] ∧
  disconnectPartners allOpen "c" waiting_s = (waiting_s, []).
Proof.
  destruct (disconnectPartners_teardown allOpen "a" paired_ab) as [H1 _].
  destruct (disconnectPartners_teardown allOpen "c" waiting_s) as [_ H2].
  destruct (H1 (mkClient "a" 1 (Some "b") false) "b" (mkClient "b" 2 (Some "a") false))
    as (Ha & Hb & _ & _ & _ & Hout); [reflexivity..|].
  split_and!; [exact Ha | exact Hb | exact Hout |].
  apply H2. intros ca Hca. vm_compute in Hca. by simplify_eq.
Defined.

(** ** The router *)

Lemma ensureClient_registered cid w pm :
  is_Some (clients (ensureClient cid w pm) !! cid).
Proof.
  unfold ensureClient, getClient.
  destruct (clients pm !! cid) eqn:H; [by rewrite H|].
  simpl. by rewrite lookup_insert_eq.
Qed.

Lemma ensureClient_known cid w pm :
  is_Some (clients pm !! cid) → ensureClient cid w pm = pm.
Proof. intros [c Hc]. unfold ensureClient, getClient. by rewrite Hc. Qed.

Lemma ensureClient_unknown cid w pm :
  clients pm !! cid = None → ensureClient cid w pm = addClient cid w pm.
Proof. intros Hc. unfold ensureClient, getClient. by rewrite Hc. Qed.

Lemma ensureClient_keeps cid w pm x c :
  clients pm !! x = Some c → clients (ensureClient cid w pm) !! x = Some c.
Proof.
  intros Hx. unfold ensureClient, getClient.
  destruct (clients pm !! cid) eqn:H; [done|].
  simpl. rewrite lookup_insert_ne; [done|]. intros ->. congruence.
Qed.

Lemma getPartner_no_live_partner cid pm :
  (∀ c, clients pm !! cid = Some c →
        partnerId c = None ∨ ∃ p, partnerId c = Some p ∧ clients pm !! p = None) →
  getPartner cid pm = None.
Proof.
  intros H. unfold getPartner. destruct (clients pm !! cid) as [c|]; [|done].
  destruct (H c eq_refl) as [->|(p & -> & Hp)]; [done|].
  destruct p; simpl; [done|]. exact Hp.
Qed.

Lemma dispatch_relay σ now cid w m pm :
  type m = "offer" ∨ type m = "answer" ∨ type m = "ice-candidate" →
  dispatch σ now cid w m pm = (pm, forwardToPartner σ cid m pm).
Proof.
  intros [H|[H|H]]; unfold dispatch; rewrite H; reflexivity.
Qed.

(** C7. An [offer], [answer] or [ice-candidate] message from a client with
    no live partner ([partnerId] unset, or naming an identifier that is not
    registered) makes the router send nothing; the queue and every
    registered client are as before, so the message is not kept for or
    redirected to anyone. *)
Theorem relay_without_partner_dropped σ now cid w m pm :
  type m = "offer" ∨ type m = "answer" ∨ type m = "ice-candidate" →
  (∀ c, clients pm !! cid = Some c →
        partnerId c = None ∨ ∃ p, partnerId c = Some p ∧ clients pm !! p = None) →
  (handleMessage σ now cid w m pm).2 = [] ∧
  waitingQueue (handleMessage σ now cid w m pm).1 = waitingQueue pm ∧
  (∀ x c, clients pm !! x = Some c →
          clients (handleMessage σ now cid w m pm).1 !! x = Some c).
Proof.
  intros Hty Hno. unfold handleMessage. rewrite dispatch_relay by done. simpl.
  split_and!.
  - unfold forwardToPartner. rewrite getPartner_no_live_partner; [done|].
    destruct (decide (is_Some (clients pm !! cid))) as [Hc|Hc%eq_None_not_Some].
    + by rewrite ensureClient_known.
    + rewrite ensureClient_unknown by done. simpl.
      rewrite lookup_insert_eq. intros c [= <-]. by left.
  - unfold ensureClient. by destruct (getClient cid pm).
  - intros x c. apply ensureClient_keeps.
Qed.

Lemma relay_without_partner_dropped_witness :
  (handleMessage allOpen "t" "s" 1 offer waiting_s).2 = [] ∧
  waitingQueue (handleMessage allOpen "t" "s" 1 offer waiting_s).1 = waitingQueue waiting_s ∧
  (∀ x c, clients waiting_s !! x = Some c →
          clients (handleMessage allOpen "t" "s" 1 offer waiting_s).1 !! x = Some c).
Proof.
  apply (relay_without_partner_dropped allOpen "t" "s" 1 offer waiting_s).
  - left. reflexivity.
  - intros c Hc. vm_compute in Hc. left. by simplify_eq.
Defined.

(** A relay message of a paired client goes to the partner alone. *)
Example relay_paired :
  handleMessage allOpen "t" "a" 1 offer paired_ab = (paired_ab, [(2, Relay offer)]).
Proof. by vm_compute. Qed.

Lemma findPartner_registered_outcome σ cid pm c :
  clients pm !! cid = Some c → isWaiting c = false →
  cid ∈ waitingQueue (findPartner σ cid pm).2 ∨
  (∃ p c', (findPartner σ cid pm).1 = Some p ∧
           clients (findPartner σ cid pm).2 !! cid = Some c' ∧ partnerId c' = Some p).
Proof.
  intros Hc Hw. unfold findPartner. rewrite Hc.
  assert (Hq : cid ∈ waitingQueue (enqueue cid c pm)).
  { unfold enqueue, includes. rewrite Hw. simpl.
    destruct (bool_decide_reflect (cid ∈ waitingQueue pm)); simpl; [done|].
    apply elem_of_app. right. apply list_elem_of_here. }
  assert (Hreg : is_Some (clients (enqueue cid c pm) !! cid)).
  { unfold enqueue. destruct (_ && _); simpl; [|by rewrite Hc].
    apply lookup_alter_is_Some. by rewrite Hc. }
  destruct (available σ cid (enqueue cid c pm)) as [|p r] eqn:Hav; [by left|].
  destruct (clients (enqueue cid c pm) !! p) as [cp|] eqn:Hp; [|by left].
  right. simpl.
  apply List_filter_head in Hav as (l1 & l2 & _ & Hf & _).
  apply andb_true_iff in Hf as [Hne%bool_decide_eq_true _].
  destruct Hreg as [c1 Hc1].
  exists p, (set_partner (Some p) c1). split_and!; [done| |done].
  rewrite lookup_alter_ne, lookup_alter_eq, Hc1 by done. done.
Qed.

Lemma handleFindPartner_state σ cid w pm :
  (handleFindPartner σ cid w pm).1 = (findPartner σ cid pm).2.
Proof.
  unfold handleFindPartner. destruct (findPartner σ cid pm) as [r pm'].
  destruct (truthy r) as [p|]; [|done].
  destruct (getClient p pm') as [pc|]; [|done].
  by destruct (isOpen σ (Some pc)).
Qed.

(** C10. [handleMessage] dispatches in the state [ensureClient] leaves: a
    sender that is not registered is first added as an idle client (not
    waiting, no partner, on the socket of the message), a registered one is
    kept as it is. So the sender is registered whenever the message is
    dispatched, whatever its kind, and a [find-partner] message of an
    unknown sender never ends in the unknown-client exit of [findPartner]:
    the sender is afterwards in the queue or has a partner. *)
Theorem handleMessage_registers_sender σ now cid w m pm :
  handleMessage σ now cid w m pm = dispatch σ now cid w m (ensureClient cid w pm) ∧
  is_Some (clients (ensureClient cid w pm) !! cid) ∧
  (is_Some (clients pm !! cid) → ensureClient cid w pm = pm) ∧
  (clients pm !! cid = None →
     ensureClient cid w pm = addClient cid w pm ∧
     clients (ensureClient cid w pm) !! cid = Some (mkClient cid w None false) ∧
     waitingQueue (ensureClient cid w pm) = waitingQueue pm ∧
     (∀ x, x ≠ cid → clients (ensureClient cid w pm) !! x = clients pm !! x) ∧
     (type m = "find-partner" →
        cid ∈ waitingQueue (handleMessage σ now cid w m pm).1 ∨
        ∃ p c', clients (handleMessage σ now cid w m pm).1 !! cid = Some c' ∧
                partnerId c' = Some p)).
Proof.
  split_and!; [done|apply ensureClient_registered|apply ensureClient_known|].
  intros Hc. rewrite ensureClient_unknown by done. split_and!; [done|..].
  - simpl. by rewrite lookup_insert_eq.
  - done.
  - intros x Hx. simpl. by rewrite lookup_insert_ne.
  - intros Hty. unfold handleMessage, dispatch. rewrite Hty. simpl.
    rewrite ensureClient_unknown by done. rewrite handleFindPartner_state.
    destruct (findPartner_registered_outcome σ cid (addClient cid w pm)
                (mkClient cid w None false)) as [H|(p & c' & _ & H1 & H2)].
    + simpl. by rewrite lookup_insert_eq.
    + done.
    + by left.
    + right. by exists p, c'.
Qed.

Lemma handleMessage_registers_sender_witness :
  clients paired_ab !! "n" = None ∧
  clients (ensureClient "n" 7 paired_ab) !! "n" = Some (mkClient "n" 7 None false) ∧
  ("n" ∈ waitingQueue (handleMessage allOpen "t" "n" 7 find_partner paired_ab).1 ∨
   ∃ p c', clients (handleMessage allOpen "t" "n" 7 find_partner paired_ab).1 !! "n" = Some c' ∧
           partnerId c' = Some p).
Proof.
  destruct (handleMessage_registers_sender allOpen "t" "n" 7 find_partner paired_ab)
    as (_ & _ & _ & H).
  destruct (H eq_refl) as (_ & H1 & _ & _ & H2).
  split_and!; [reflexivity | exact H1 | exact (H2 eq_refl)].
Defined.

(** ** Matchmaking *)

Lemma eligible_iff σ cid pm x :
  eligible σ cid pm x ↔
  bool_decide (x ≠ cid) && isOpen σ (clients pm !! x) = true.
Proof.
  unfold eligible. rewrite andb_true_iff, bool_decide_eq_true. split.
  - intros [Hne (c & Hc & Ho)]. split; [done|].
    rewrite Hc. simpl. by apply bool_decide_eq_true.
  - intros [Hne Ho]. split; [done|].
    destruct (clients pm !! x) as [c|]; [|done].
    exists c. split; [done|]. by apply bool_decide_eq_true in Ho.
Qed.

Lemma enqueue_queue cid c pm :
  waitingQueue (enqueue cid c pm) = waitingQueue pm ∨
  (isWaiting c = false ∧ (cid ∉ waitingQueue pm) ∧
   waitingQueue (enqueue cid c pm) = waitingQueue pm ++ [cid]).
Proof.
  unfold enqueue, includes. destruct (isWaiting c); simpl; [by left|].
  destruct (bool_decide_reflect (cid ∈ waitingQueue pm)); simpl; [by left|by right].
Qed.

Lemma enqueue_lookup_ne cid c pm x :
  x ≠ cid → clients (enqueue cid c pm) !! x = clients pm !! x.
Proof.
  intros Hne. unfold enqueue. destruct (_ && _); [|done].
  simpl. by rewrite lookup_alter_ne.
Qed.

Lemma enqueue_lookup_self cid c pm :
  clients pm !! cid = Some c →
  ∃ c1, clients (enqueue cid c pm) !! cid = Some c1 ∧
        id c1 = id c ∧ ws c1 = ws c ∧ partnerId c1 = partnerId c.
Proof.
  intros Hc. unfold enqueue. destruct (_ && _); simpl.
  - rewrite lookup_alter_eq, Hc. by eexists.
  - by exists c.
Qed.

Lemma filter_not_self (g : string → bool) cid (q : list string) :
  List.filter (λ x, bool_decide (x ≠ cid) && g x) (q ++ [cid])
  = List.filter (λ x, bool_decide (x ≠ cid) && g x) q.
Proof.
  rewrite List.filter_app. simpl.
  rewrite bool_decide_false by (by intros H). simpl. apply app_nil_r.
Qed.

(** The caller's own entry is never a candidate, so the candidates are
    those of the queue before the call. *)
Lemma available_enqueue σ cid c pm :
  available σ cid (enqueue cid c pm) = available σ cid pm.
Proof.
  unfold available.
  transitivity (List.filter (λ x, bool_decide (x ≠ cid) && isOpen σ (clients pm !! x))
                  (waitingQueue (enqueue cid c pm))).
  - apply List.filter_ext. intros x.
    destruct (bool_decide_reflect (x ≠ cid)); simpl; [|done].
    by rewrite enqueue_lookup_ne.
  - destruct (enqueue_queue cid c pm) as [->|(_ & _ & ->)]; [done|].
    apply filter_not_self.
Qed.

Lemma filter_pair_enqueue cid p c pm :
  List.filter (λ x, bool_decide (x ≠ cid) && bool_decide (x ≠ p))
    (waitingQueue (enqueue cid c pm))
  = List.filter (λ x, bool_decide (x ≠ cid) && bool_decide (x ≠ p)) (waitingQueue pm).
Proof.
  destruct (enqueue_queue cid c pm) as [->|(_ & _ & ->)]; [done|].
  apply (filter_not_self (λ x, bool_decide (x ≠ p))).
Qed.

(** The two ways a call of a registered client ends. *)
Lemma findPartner_cases σ cid pm c :
  clients pm !! cid = Some c →
  (available σ cid pm = [] ∧ findPartner σ cid pm = (None, enqueue cid c pm)) ∨
  (∃ p r cp, available σ cid pm = p :: r ∧ p ≠ cid ∧ p ∈ waitingQueue pm ∧
             clients pm !! p = Some cp ∧ σ (ws cp) = OPEN ∧
             findPartner σ cid pm = (Some p, matched cid p c pm)).
Proof.
  intros Hc. unfold findPartner. rewrite Hc, available_enqueue.
  destruct (available σ cid pm) as [|p r] eqn:Hav; [by left|].
  right. assert (Hp : p ∈ available σ cid pm) by (rewrite Hav; apply list_elem_of_here).
  apply elem_of_List_filter in Hp as [Hq [Hne (cp & Hcp & Ho)]%eligible_iff].
  exists p, r, cp. split_and!; try done.
  rewrite enqueue_lookup_ne, Hcp by done. unfold matched.
  by rewrite filter_pair_enqueue.
Qed.

Lemma findPartner_unknown σ cid pm :
  clients pm !! cid = None → findPartner σ cid pm = (None, pm).
Proof. intros H. unfold findPartner. by rewrite H. Qed.

Lemma matched_queue cid p c pm :
  waitingQueue (matched cid p c pm)
  = List.filter (λ x, bool_decide (x ≠ cid) && bool_decide (x ≠ p)) (waitingQueue pm).
Proof. done. Qed.

Lemma matched_lookup_self cid p c pm :
  clients pm !! cid = Some c → p ≠ cid →
  clients (matched cid p c pm) !! cid
  = Some (mkClient (id c) (ws c) (Some p) false).
Proof.
  intros Hc Hne. unfold matched. simpl.
  rewrite lookup_alter_ne, lookup_alter_eq by done.
  destruct (enqueue_lookup_self cid c pm Hc) as (c1 & -> & H1 & H2 & _).
  simpl. unfold set_partner. by rewrite H1, H2.
Qed.

Lemma matched_lookup_partner cid p c cp pm :
  clients pm !! p = Some cp → p ≠ cid →
  clients (matched cid p c pm) !! p = Some (set_partner (Some cid) cp).
Proof.
  intros Hp Hne. unfold matched. simpl.
  rewrite lookup_alter_eq, lookup_alter_ne, enqueue_lookup_ne, Hp by done. done.
Qed.

Lemma matched_lookup_other cid p c pm x :
  x ≠ cid → x ≠ p → clients (matched cid p c pm) !! x = clients pm !! x.
Proof.
  intros H1 H2. unfold matched. simpl.
  by rewrite !lookup_alter_ne, enqueue_lookup_ne.
Qed.

Lemma findPartner_first_eligible σ cid pm c q1 p q2 :
  clients pm !! cid = Some c →
  waitingQueue pm = q1 ++ p :: q2 →
  eligible σ cid pm p →
  (∀ x, x ∈ q1 → ¬ eligible σ cid pm x) →
  findPartner σ cid pm = (Some p, matched cid p c pm).
Proof.
  intros Hc Hq Hp Hq1.
  assert (Hav : ∃ r, available σ cid pm = p :: r).
  { unfold available. rewrite Hq. eexists. apply List_filter_skip.
    - intros x Hx. apply not_true_is_false. rewrite <- eligible_iff. by apply Hq1.
    - by apply eligible_iff. }
  destruct Hav as [r Hav].
  destruct (findPartner_cases σ cid pm c Hc) as [[Hnil _]|(p' & r' & cp & Hav' & _ & _ & _ & _ & ->)].
  - congruence.
  - rewrite Hav in Hav'. by simplify_eq.
Qed.

(** C6. When the queue holds an eligible entry (another identifier whose
    client is registered with an open channel), [findPartner] returns the
    eligible entry closest to the head and pairs the caller with it. Hence
    if A stands before B in the queue and A is eligible, the caller is
    paired with A or an entry before it, not with B. *)
Theorem findPartner_fifo σ cid pm c :
  clients pm !! cid = Some c →
  (∀ q1 p q2,
      waitingQueue pm = q1 ++ p :: q2 →
      eligible σ cid pm p →
      (∀ x, x ∈ q1 → ¬ eligible σ cid pm x) →
      (findPartner σ cid pm).1 = Some p ∧
      ∃ c' cp', clients (findPartner σ cid pm).2 !! cid = Some c' ∧
                partnerId c' = Some p ∧
                clients (findPartner σ cid pm).2 !! p = Some cp' ∧
                partnerId cp' = Some cid) ∧
  (∀ qa A qb B,
      waitingQueue pm = qa ++ A :: qb →
      eligible σ cid pm A → B ∉ qa → B ≠ A →
      (findPartner σ cid pm).1 ≠ Some B ∧
      ∃ p, (findPartner σ cid pm).1 = Some p ∧ p ∈ qa ++ [A]).
Proof.
  intros Hc. split.
  - intros q1 p q2 Hq Hp Hq1.
    rewrite (findPartner_first_eligible σ cid pm c q1 p q2) by done. simpl.
    split; [done|]. destruct Hp as [Hne (cp & Hcp & _)].
    eexists _, _. split_and!.
    + by apply matched_lookup_self.
    + done.
    + by apply matched_lookup_partner.
    + done.
  - intros qa A qb B Hq HA HB HBA.
    assert (Hex : ∃ p, (findPartner σ cid pm).1 = Some p ∧ p ∈ qa ++ [A]).
    { destruct (findPartner_cases σ cid pm c Hc)
        as [[Hnil _]|(p & r & cp & Hav & _ & _ & _ & _ & ->)].
      - exfalso. assert (HinA : A ∈ available σ cid pm).
        { apply elem_of_List_filter. split; [|by apply eligible_iff].
          rewrite Hq. apply elem_of_app. right. apply list_elem_of_here. }
        rewrite Hnil in HinA. by apply elem_of_nil in HinA.
      - exists p. split; [done|]. unfold available in Hav.
        apply List_filter_head in Hav as (l1 & l2 & Hl & _ & Hl1).
        rewrite Hq in Hl.
        destruct (decide (p ∈ qa)) as [|Hpqa]; [apply elem_of_app; by left|].
        apply elem_of_app. right. apply list_elem_of_singleton.
        (* A is eligible, so it is not in the skipped prefix l1 *)
        assert (HAl1 : A ∉ l1).
        { intros HA1. apply Hl1 in HA1. apply eligible_iff in HA. congruence. }
        clear -Hl Hpqa HAl1. revert l1 Hl HAl1.
        induction qa as [|y qa IH]; intros l1 Hl HAl1.
        + destruct l1 as [|z l1]; simpl in Hl; [congruence|].
          injection Hl as -> _. exfalso. apply HAl1, list_elem_of_here.
        + apply not_elem_of_cons in Hpqa as [Hpy Hpqa].
          destruct l1 as [|z l1]; simpl in Hl; [congruence|].
          injection Hl as -> Hl. apply (IH Hpqa l1 Hl).
          intros H. apply HAl1. by apply list_elem_of_further. }
    split; [|done]. destruct Hex as (p & Hp & Hin). rewrite Hp. intros [= ->].
    apply elem_of_app in Hin as [Hin|Hin%list_elem_of_singleton]; done.
Qed.

Lemma findPartner_fifo_witness :
  (findPartner (closedAt 1) "d" queue_sab).1 = Some "a" ∧
  (findPartner (closedAt 1) "d" queue_sab).1 ≠ Some "b".
Proof.
  destruct (findPartner_fifo (closedAt 1) "d" queue_sab (mkClient "d" 4 None false) eq_refl)
    as [H1 H2].
  split.
  - apply (H1 ["s"] "a" ["b"] eq_refl).
    + split; [done|]. exists (mkClient "a" 2 None true). by vm_compute.
    + intros x ->%list_elem_of_singleton [_ (c & Hc & Ho)].
      vm_compute in Hc. injection Hc as <-. vm_compute in Ho. discriminate.
  - apply (H2 ["s"] "a" ["b"] "b" eq_refl).
    + split; [done|]. exists (mkClient "a" 2 None true). by vm_compute.
    + intros H%list_elem_of_singleton. discriminate.
    + discriminate.
Defined.

(** C5, as stated, fails: s waits in the queue and its socket has closed;
    c asks for a match and is told to wait, and s is still in the queue. *)
Lemma scan_evicts_stale_counterexample :
  ¬ scan_evicts_stale (closedAt 1) "c" waiting_s.
Proof.
  intros H. apply (H "s").
  - vm_compute. apply list_elem_of_here.
  - by vm_compute.
  - vm_compute. apply list_elem_of_here.
Qed.

Example scan_keeps_stale_run :
  findPartner (closedAt 1) "c" waiting_s
  = (None, {| clients := <["s" := mkClient "s" 1 None true]>
                           {[ "c" := mkClient "c" 2 None true ]};
              waitingQueue := ["s"; "c"] |}).
Proof. by vm_compute. Qed.

(** C5, amended. The scan of [findPartner] skips stale entries and leaves
    them where they are: an entry other than the caller whose client is
    gone or whose channel is not open is never returned as the partner,
    and it is still in the queue after the call, whether the call ends in
    a match or not. *)
Theorem findPartner_keeps_stale σ cid pm x :
  x ∈ waitingQueue pm → x ≠ cid → stale σ pm x →
  (findPartner σ cid pm).1 ≠ Some x ∧ x ∈ waitingQueue (findPartner σ cid pm).2.
Proof.
  intros Hx Hne Hst. unfold stale in Hst.
  destruct (clients pm !! cid) as [c|] eqn:Hc.
  - destruct (findPartner_cases σ cid pm c Hc)
      as [[_ ->]|(p & r & cp & _ & _ & _ & Hcp & Ho & ->)]; simpl.
    + split; [done|].
      destruct (enqueue_queue cid c pm) as [->|(_ & _ & ->)]; [done|].
      apply elem_of_app. by left.
    + assert (Hxp : x ≠ p).
      { intros ->. rewrite Hcp in Hst. simpl in Hst.
        by apply bool_decide_eq_false in Hst. }
      split; [congruence|].
      apply elem_of_List_filter. split; [done|].
      by rewrite !bool_decide_true.
  - rewrite findPartner_unknown by done. done.
Qed.

Lemma findPartner_keeps_stale_witness :
  (findPartner (closedAt 1) "d" queue_sab).1 ≠ Some "s" ∧
  "s" ∈ waitingQueue (findPartner (closedAt 1) "d" queue_sab).2.
Proof.
  apply (findPartner_keeps_stale (closedAt 1) "d" queue_sab "s").
  - vm_compute. apply list_elem_of_here.
  - discriminate.
  - by vm_compute.
Defined.

(** C1, as stated, fails: a is paired with b, is not waiting and is not
    in the queue; its request appends it to the queue. *)
Lemma request_keeps_queue_counterexample :
  ¬ request_keeps_queue allOpen "a" paired_ab.
Proof.
  intros H.
  specialize (H (mkClient "a" 1 (Some "b") false) eq_refl (or_intror (mk_is_Some _ _ eq_refl)) "a").
  destruct H as [H _].
  assert (Hin : "a" ∈ waitingQueue (findPartner allOpen "a" paired_ab).2).
  { vm_compute. apply list_elem_of_here. }
  apply H in Hin. vm_compute in Hin. by apply elem_of_nil in Hin.
Qed.

Example request_of_paired_run :
  findPartner allOpen "a" paired_ab
  = (None, {| clients := <["a" := mkClient "a" 1 (Some "b") true]>
                           {[ "b" := mkClient "b" 2 (Some "a") false ]};
              waitingQueue := ["a"] |}).
Proof. by vm_compute. Qed.

(** C1, amended. For a registered client that is already waiting (its
    [isWaiting] flag is set or its identifier is in the queue) a call of
    [findPartner] inserts nothing: the queue afterwards is the queue before
    when there is no match, and the queue before without the caller and the
    matched partner when there is one. A client that is not waiting and not
    in the queue is appended to the tail, whether or not its [partnerId] is
    set: the queue afterwards is the queue before with the caller at the
    tail (no match), or the queue before without the matched partner. *)
Theorem findPartner_queue σ cid pm c :
  clients pm !! cid = Some c →
  (isWaiting c = true ∨ cid ∈ waitingQueue pm →
     ((findPartner σ cid pm).1 = None ∧
      waitingQueue (findPartner σ cid pm).2 = waitingQueue pm) ∨
     (∃ p, (findPartner σ cid pm).1 = Some p ∧
           waitingQueue (findPartner σ cid pm).2
           = List.filter (λ x, bool_decide (x ≠ cid) && bool_decide (x ≠ p))
               (waitingQueue pm))) ∧
  (isWaiting c = false → cid ∉ waitingQueue pm →
     ((findPartner σ cid pm).1 = None ∧
      waitingQueue (findPartner σ cid pm).2 = waitingQueue pm ++ [cid]) ∨
     (∃ p, (findPartner σ cid pm).1 = Some p ∧
           waitingQueue (findPartner σ cid pm).2
           = List.filter (λ x, bool_decide (x ≠ cid) && bool_decide (x ≠ p))
               (waitingQueue pm))).
Proof.
  intros Hc.
  destruct (findPartner_cases σ cid pm c Hc)
    as [[_ ->]|(p & r & cp & _ & _ & _ & _ & _ & ->)]; simpl.
  - split.
    + intros Hw. left. split; [done|].
      destruct (enqueue_queue cid c pm) as [->|(Hw' & Hq & _)]; [done|].
      destruct Hw; congruence.
    + intros Hw Hq. left. split; [done|].
      unfold enqueue, includes. rewrite Hw. simpl.
      by rewrite bool_decide_false.
  - split; intros; right; by exists p.
Qed.

Lemma findPartner_queue_witness :
  (findPartner allOpen "s" waiting_s).1 = None ∧
  waitingQueue (findPartner allOpen "s" waiting_s).2 = ["s"] ∧
  (findPartner allOpen "a" paired_ab).1 = None ∧
  waitingQueue (findPartner allOpen "a" paired_ab).2 = ["a"].
Proof.
  destruct (findPartner_queue allOpen "s" waiting_s (mkClient "s" 1 None true) eq_refl)
    as [H1 _].
  destruct (findPartner_queue allOpen "a" paired_ab (mkClient "a" 1 (Some "b") false) eq_refl)
    as [_ H2].
  destruct (H1 (or_introl eq_refl)) as [[Hn Hq]|(p & Hp & _)];
    [|vm_compute in Hp; discriminate Hp].
  destruct (H2 eq_refl) as [[Hn' Hq']|(p & Hp & _)];
    [by intros H%elem_of_nil| |vm_compute in Hp; discriminate Hp].
  split_and!; [exact Hn | exact Hq | exact Hn' | exact Hq'].
Defined.

(** ** The queue never holds an identifier twice *)

Lemma enqueue_NoDup cid c pm :
  NoDup (waitingQueue pm) → NoDup (waitingQueue (enqueue cid c pm)).
Proof.
  intros Hnd. destruct (enqueue_queue cid c pm) as [->|(_ & Hq & ->)]; [done|].
  apply NoDup_app. split_and!; [done| |apply NoDup_singleton].
  intros x Hx ->%list_elem_of_singleton. done.
Qed.

Lemma findPartner_NoDup σ cid pm :
  NoDup (waitingQueue pm) → NoDup (waitingQueue (findPartner σ cid pm).2).
Proof.
  intros Hnd. destruct (clients pm !! cid) as [c|] eqn:Hc.
  - destruct (findPartner_cases σ cid pm c Hc)
      as [[_ ->]|(p & r & cp & _ & _ & _ & _ & _ & ->)]; simpl.
    + by apply enqueue_NoDup.
    + by apply NoDup_List_filter.
  - by rewrite findPartner_unknown.
Qed.

Lemma removeClient_queue σ cid pm :
  waitingQueue (removeClient σ cid pm).1 = waitingQueue pm ∨
  waitingQueue (removeClient σ cid pm).1 = removeFromQueue cid (waitingQueue pm).
Proof.
  unfold removeClient. destruct (clients pm !! cid) as [client|]; [|by left].
  right. destruct (truthy (partnerId client)) as [p|]; [|done].
  destruct (clients pm !! p) as [partner|]; [|done].
  by destruct (isOpen σ (Some partner)).
Qed.

Lemma disconnectPartners_queue σ cid pm :
  waitingQueue (disconnectPartners σ cid pm).1 = waitingQueue pm.
Proof.
  unfold disconnectPartners. destruct (clients pm !! cid) as [client|]; [|done].
  destruct (truthy (partnerId client)) as [p|]; [|done].
  by destruct (clients pm !! p).
Qed.

Lemma step_NoDup σ o pm :
  NoDup (waitingQueue pm) → NoDup (waitingQueue (step σ o pm)).
Proof.
  intros Hnd. destruct o as [cid w|cid|cid|cid]; simpl.
  - done.
  - by apply findPartner_NoDup.
  - destruct (removeClient_queue σ cid pm) as [->| ->]; [done|].
    by apply removeFromQueue_NoDup.
  - by rewrite disconnectPartners_queue.
Qed.

Lemma run_NoDup t pm :
  NoDup (waitingQueue pm) → NoDup (waitingQueue (run t pm)).
Proof.
  revert pm. induction t as [|[σ o] t IH]; intros pm Hnd; simpl; [done|].
  by apply IH, step_NoDup.
Qed.

(** ** The invariant and its preservation *)

Lemma Inv_init : Inv newPeerManager.
Proof.
  split.
  - apply NoDup_nil_2.
  - intros x. unfold newPeerManager. simpl. split.
    + by intros H%elem_of_nil.
    + intros (c & Hc & _). by apply lookup_empty_Some in Hc.
  - intros a ca b Ha. unfold newPeerManager in Ha. simpl in Ha.
    by apply lookup_empty_Some in Ha.
Qed.

Section invariant.
Context (pm : PeerManager) (HI : Inv pm).

Lemma Inv_waiting x c :
  clients pm !! x = Some c → x ∈ waitingQueue pm ↔ isWaiting c = true.
Proof.
  intros Hc. rewrite (inv_queue pm HI x). split.
  - intros (c' & Hc' & Hw). congruence.
  - intros Hw. by exists c.
Qed.

Lemma Inv_queue_registered x :
  x ∈ waitingQueue pm →
  ∃ c, clients pm !! x = Some c ∧ isWaiting c = true ∧ partnerId c = None.
Proof.
  intros (c & Hc & Hw)%(inv_queue pm HI). exists c. split_and!; [done..|].
  destruct (partnerId c) as [b|] eqn:Hb; [|done].
  destruct (inv_pair pm HI x c b Hc Hb) as [Hw' _]. congruence.
Qed.

Lemma Inv_partner_idle a ca b cb :
  clients pm !! a = Some ca → partnerId ca = Some b → clients pm !! b = Some cb →
  partnerId cb = Some a ∧ isWaiting cb = false ∧ a ≠ b.
Proof.
  intros Ha Hab Hb. destruct (inv_pair pm HI a ca b Ha Hab) as (_ & Hne & Hsym).
  specialize (Hsym cb Hb). split_and!; [done| |done].
  by destruct (inv_pair pm HI b cb a Hb Hsym) as [? _].
Qed.

Lemma Inv_addClient cid w :
  clients pm !! cid = None →
  map_Forall (λ _ c, partnerId c ≠ Some cid) (clients pm) →
  Inv (addClient cid w pm).
Proof.
  intros Hfresh Hunref. split; simpl.
  - apply (inv_nodup pm HI).
  - intros x. simpl. rewrite (inv_queue pm HI x). split.
    + intros (c & Hc & Hw). exists c. split; [|done].
      rewrite lookup_insert_ne; [done|]. intros ->. congruence.
    + intros (c & Hc & Hw). apply lookup_insert_Some in Hc as [[_ <-]|[_ Hc]].
      * done.
      * by exists c.
  - intros a ca b Ha Hab. apply lookup_insert_Some in Ha as [[_ <-]|[Hne Ha]]; [done|].
    destruct (inv_pair pm HI a ca b Ha Hab) as (Hw & Hab' & Hsym).
    split_and!; [done..|].
    intros cb Hb. apply lookup_insert_Some in Hb as [[<- _]|[_ Hb]].
    + by destruct (Hunref a ca Ha).
    + by apply Hsym.
Qed.

Lemma Inv_enqueue cid c :
  clients pm !! cid = Some c → partnerId c = None → Inv (enqueue cid c pm).
Proof.
  intros Hc Hp. unfold enqueue, includes.
  destruct (isWaiting c) eqn:Hw; simpl; [done|].
  destruct (bool_decide_reflect (cid ∈ waitingQueue pm)) as [Hq|Hq]; simpl; [done|].
  split; simpl.
  - apply NoDup_app. split_and!; [apply (inv_nodup pm HI)| |apply NoDup_singleton].
    intros x Hx ->%list_elem_of_singleton. done.
  - intros x. simpl.
    rewrite elem_of_app, list_elem_of_singleton, (inv_queue pm HI x).
    split.
    + intros [(c' & Hc' & Hw')| ->].
      * exists c'. split; [|done]. rewrite lookup_alter_ne; [done|]. intros ->. congruence.
      * rewrite lookup_alter_eq, Hc. by eexists.
    + intros (c' & Hc' & Hw'). destruct (decide (x = cid)) as [->|Hne]; [by right|].
      left. exists c'. by rewrite lookup_alter_ne in Hc'.
  - intros a ca b Ha Hab. destruct (decide (a = cid)) as [->|Hne].
    + rewrite lookup_alter_eq, Hc in Ha. simpl in Ha. injection Ha as <-.
      simpl in Hab. congruence.
    + rewrite lookup_alter_ne in Ha by done.
      destruct (inv_pair pm HI a ca b Ha Hab) as (Hw' & Hab' & Hsym).
      split_and!; [done..|].
      intros cb Hb. destruct (decide (b = cid)) as [->|Hnb].
      * specialize (Hsym c Hc). congruence.
      * rewrite lookup_alter_ne in Hb by done. by apply Hsym.
Qed.

Lemma Inv_matched cid p c cp :
  clients pm !! cid = Some c → partnerId c = None →
  p ≠ cid → p ∈ waitingQueue pm → clients pm !! p = Some cp →
  Inv (matched cid p c pm).
Proof.
  intros Hc Hpc Hne Hq Hcp.
  assert (Hpp : partnerId cp = None).
  { destruct (Inv_queue_registered p Hq) as (c' & Hc' & _ & Hn). congruence. }
  pose proof (matched_lookup_self cid p c pm Hc Hne) as Hself.
  pose proof (matched_lookup_partner cid p c cp pm Hcp Hne) as Hpart.
  split.
  - rewrite matched_queue. apply NoDup_List_filter, (inv_nodup pm HI).
  - intros x.
    rewrite matched_queue, elem_of_List_filter, andb_true_iff, !bool_decide_eq_true.
    split.
    + intros (Hx & Hxc & Hxp). apply (inv_queue pm HI) in Hx as (c' & Hc' & Hw).
      exists c'. by rewrite matched_lookup_other.
    + intros (c' & Hc' & Hw).
      destruct (decide (x = cid)) as [->|Hxc].
      { rewrite Hself in Hc'. by injection Hc' as <-. }
      destruct (decide (x = p)) as [->|Hxp].
      { rewrite Hpart in Hc'. by injection Hc' as <-. }
      rewrite matched_lookup_other in Hc' by done.
      split_and!; [|done..]. apply (inv_queue pm HI). by exists c'.
  - intros a ca b Ha Hab.
    destruct (decide (a = cid)) as [->|Hac].
    { rewrite Hself in Ha. injection Ha as <-. simpl in Hab. injection Hab as <-.
      split_and!; [done..|]. intros cb Hb. rewrite Hpart in Hb. by injection Hb as <-. }
    destruct (decide (a = p)) as [->|Hap].
    { rewrite Hpart in Ha. injection Ha as <-. simpl in Hab. injection Hab as <-.
      split_and!; [done..|]. intros cb Hb. rewrite Hself in Hb. by injection Hb as <-. }
    rewrite matched_lookup_other in Ha by done.
    destruct (inv_pair pm HI a ca b Ha Hab) as (Hw' & Hab' & Hsym).
    split_and!; [done..|]. intros cb Hb.
    destruct (decide (b = cid)) as [->|Hbc].
    { specialize (Hsym c Hc). congruence. }
    destruct (decide (b = p)) as [->|Hbp].
    { specialize (Hsym cp Hcp). congruence. }
    rewrite matched_lookup_other in Hb by done. by apply Hsym.
Qed.

Lemma Inv_findPartner σ cid :
  (∀ c, clients pm !! cid = Some c → partnerId c = None) →
  Inv (findPartner σ cid pm).2.
Proof.
  intros Hun. destruct (clients pm !! cid) as [c|] eqn:Hc.
  - specialize (Hun c eq_refl).
    destruct (findPartner_cases σ cid pm c Hc)
      as [[_ ->]|(p & r & cp & _ & Hne & Hq & Hcp & _ & ->)]; simpl.
    + by apply Inv_enqueue.
    + by apply (Inv_matched cid p c cp).
  - by rewrite findPartner_unknown.
Qed.

Lemma Inv_reset_pair a ca p pm' :
  clients pm !! a = Some ca → partnerId ca = Some p →
  clients pm' = alter reset_client a (alter reset_client p (clients pm)) →
  waitingQueue pm' = waitingQueue pm →
  Inv pm'.
Proof.
  intros Ha Hap Hcl Hq.
  destruct (inv_pair pm HI a ca p Ha Hap) as (Hwa & Hne & Hsym).
  assert (Hother : ∀ x, x ≠ a → x ≠ p → clients pm' !! x = clients pm !! x).
  { intros x H1 H2. by rewrite Hcl, !lookup_alter_ne. }
  assert (Hself : clients pm' !! a = Some (reset_client ca)).
  { by rewrite Hcl, lookup_alter_eq, lookup_alter_ne, Ha. }
  assert (Hpart : clients pm' !! p = reset_client <$> clients pm !! p).
  { by rewrite Hcl, lookup_alter_ne, lookup_alter_eq. }
  split.
  - rewrite Hq. apply (inv_nodup pm HI).
  - intros x. rewrite Hq. rewrite (inv_queue pm HI x). split.
    + intros (c & Hc & Hw).
      destruct (decide (x = a)) as [->|Hxa]; [congruence|].
      destruct (decide (x = p)) as [->|Hxp].
      { specialize (Hsym c Hc).
        destruct (inv_pair pm HI p c a Hc Hsym) as [? _]. congruence. }
      exists c. by rewrite Hother.
    + intros (c & Hc & Hw).
      destruct (decide (x = a)) as [->|Hxa].
      { rewrite Hself in Hc. by injection Hc as <-. }
      destruct (decide (x = p)) as [->|Hxp].
      { rewrite Hpart in Hc. destruct (clients pm !! p); [|done].
        simpl in Hc. by injection Hc as <-. }
      rewrite Hother in Hc by done. by exists c.
  - intros x cx y Hx Hxy.
    destruct (decide (x = a)) as [->|Hxa].
    { rewrite Hself in Hx. by injection Hx as <-. }
    destruct (decide (x = p)) as [->|Hxp].
    { rewrite Hpart in Hx. destruct (clients pm !! p); [|done].
      simpl in Hx. by injection Hx as <-. }
    rewrite Hother in Hx by done.
    destruct (inv_pair pm HI x cx y Hx Hxy) as (Hwx & Hney & Hsymy).
    split_and!; [done..|]. intros cy Hy.
    destruct (decide (y = a)) as [->|Hya].
    { specialize (Hsymy ca Ha). congruence. }
    destruct (decide (y = p)) as [->|Hyp].
    { rewrite Hpart in Hy. destruct (clients pm !! p) as [cb|] eqn:Hb; [|done].
      specialize (Hsym cb eq_refl). specialize (Hsymy cb eq_refl). congruence. }
    rewrite Hother in Hy by done. by apply Hsymy.
Qed.


Lemma disconnectPartners_clients σ cid client p :
  clients pm !! cid = Some client → truthy (partnerId client) = Some p →
  clients (disconnectPartners σ cid pm).1
  = alter reset_client cid (alter reset_client p (clients pm)).
Proof.
  intros Hc Hp. unfold disconnectPartners. rewrite Hc, Hp.
  destruct (clients pm !! p) as [partner|] eqn:Hpartner; simpl; [done|].
  f_equal. symmetry. apply alter_id. intros x Hx. congruence.
Qed.

Lemma Inv_disconnectPartners σ cid : Inv (disconnectPartners σ cid pm).1.
Proof.
  destruct (clients pm !! cid) as [client|] eqn:Hc.
  - destruct (truthy (partnerId client)) as [p|] eqn:Hp.
    + apply (Inv_reset_pair cid client p).
      * done.
      * by apply truthy_Some.
      * by apply (disconnectPartners_clients σ cid client p).
      * apply disconnectPartners_queue.
    + unfold disconnectPartners. by rewrite Hc, Hp.
  - unfold disconnectPartners. by rewrite Hc.
Qed.

Lemma removeClient_cases σ cid client :
  clients pm !! cid = Some client →
  (removeClient σ cid pm).1
  = {| clients := delete cid (clients pm);
       waitingQueue := removeFromQueue cid (waitingQueue pm) |} ∨
  (∃ p partner,
      partnerId client = Some p ∧ clients pm !! p = Some partner ∧
      (removeClient σ cid pm).1
      = {| clients := delete cid (alter reset_client p (clients pm));
           waitingQueue := removeFromQueue cid (waitingQueue pm) |}).
Proof.
  intros Hc. unfold removeClient. rewrite Hc.
  destruct (truthy (partnerId client)) as [p|] eqn:Hp; [|by left].
  destruct (clients pm !! p) as [partner|] eqn:Hpartner; [|by left].
  destruct (isOpen σ (Some partner)); [|by left].
  right. exists p, partner. split_and!; [by apply truthy_Some|done..].
Qed.

Lemma Inv_delete cid :
  Inv {| clients := delete cid (clients pm);
         waitingQueue := removeFromQueue cid (waitingQueue pm) |}.
Proof.
  pose proof (inv_nodup pm HI) as Hnd. split; simpl.
  - by apply removeFromQueue_NoDup.
  - intros x. simpl. rewrite elem_of_removeFromQueue by done.
    rewrite (inv_queue pm HI x). split.
    + intros [(c & Hc & Hw) Hne]. exists c. by rewrite lookup_delete_ne.
    + intros (c & [Hne Hc]%lookup_delete_Some & Hw). split; [by exists c|done].
  - intros a ca b [Hne Ha]%lookup_delete_Some Hab.
    destruct (inv_pair pm HI a ca b Ha Hab) as (Hw & Hab' & Hsym).
    split_and!; [done..|].
    intros cb [_ Hb]%lookup_delete_Some. by apply Hsym.
Qed.

Lemma Inv_delete_reset cid client p partner :
  clients pm !! cid = Some client → partnerId client = Some p →
  clients pm !! p = Some partner →
  Inv {| clients := delete cid (alter reset_client p (clients pm));
         waitingQueue := removeFromQueue cid (waitingQueue pm) |}.
Proof.
  intros Hc Hcp Hp. pose proof (inv_nodup pm HI) as Hnd.
  destruct (Inv_partner_idle cid client p partner Hc Hcp Hp) as (Hpc & Hpw & Hne).
  split; simpl.
  - by apply removeFromQueue_NoDup.
  - intros x. simpl. rewrite elem_of_removeFromQueue by done.
    rewrite (inv_queue pm HI x). split.
    + intros [(c & Hx & Hw) Hxc]. exists c. split; [|done].
      rewrite lookup_delete_ne by done.
      rewrite lookup_alter_ne; [done|]. intros ->. congruence.
    + intros (c & [Hxc Hx]%lookup_delete_Some & Hw). split; [|done].
      destruct (decide (p = x)) as [->|Hpx].
      * rewrite lookup_alter_eq, Hp in Hx. simpl in Hx. by injection Hx as <-.
      * rewrite lookup_alter_ne in Hx by done. by exists c.
  - intros a ca b [Hac Ha]%lookup_delete_Some Hab.
    destruct (decide (p = a)) as [->|Hpa].
    { rewrite lookup_alter_eq, Hp in Ha. simpl in Ha. by injection Ha as <-. }
    rewrite lookup_alter_ne in Ha by done.
    destruct (inv_pair pm HI a ca b Ha Hab) as (Hw & Hab' & Hsym).
    split_and!; [done..|].
    intros cb [Hbc Hb]%lookup_delete_Some.
    destruct (decide (p = b)) as [->|Hpb].
    { specialize (Hsym partner Hp). congruence. }
    rewrite lookup_alter_ne in Hb by done. by apply Hsym.
Qed.

Lemma Inv_removeClient σ cid : Inv (removeClient σ cid pm).1.
Proof.
  destruct (clients pm !! cid) as [client|] eqn:Hc.
  - destruct (removeClient_cases σ cid client Hc) as [->|(p & partner & Hp & Hpartner & ->)].
    + apply Inv_delete.
    + by apply (Inv_delete_reset cid client p partner).
  - by rewrite removeClient_unknown.
Qed.

Lemma Inv_step σ o : admissible pm o = true → Inv (step σ o pm).
Proof.
  destruct o as [cid w|cid|cid|cid]; simpl.
  - intros [Hfresh%bool_decide_eq_true Hunref%bool_decide_eq_true]%andb_true_iff.
    by apply Inv_addClient.
  - intros Hadm. apply Inv_findPartner. intros c Hc. rewrite Hc in Hadm.
    by apply bool_decide_eq_true in Hadm.
  - intros _. apply Inv_removeClient.
  - intros _. apply Inv_disconnectPartners.
Qed.

End invariant.

Lemma Inv_run t pm :
  Inv pm → admissible_trace t pm = true → Inv (run t pm).
Proof.
  revert pm. induction t as [|[σ o] t IH]; intros pm HI; simpl; [done|].
  intros [Hadm Ht]%andb_true_iff. apply IH; [by apply Inv_step|done].
Qed.

(** Every prefix of an admissible trace is admissible: the invariant holds
    after each operation, not only at the end. *)
Lemma admissible_trace_prefix t t' pm :
  admissible_trace (t ++ t') pm = true → admissible_trace t pm = true.
Proof.
  revert pm. induction t as [|[σ o] t IH]; intros pm; simpl; [done|].
  intros [Hadm Ht]%andb_true_iff. rewrite Hadm. simpl. by apply IH.
Qed.

Lemma Inv_pairing pm : Inv pm → pairing_symmetric_exclusive pm.
Proof.
  intros HI a b ca cb Ha Hb Hab.
  destruct (Inv_partner_idle pm HI a ca b cb Ha Hab Hb) as (Hba & Hwb & Hne).
  destruct (inv_pair pm HI a ca b Ha Hab) as (Hwa & _ & _).
  split_and!; [done| |].
  - rewrite (Inv_waiting pm HI a ca Ha). congruence.
  - rewrite (Inv_waiting pm HI b cb Hb). congruence.
Qed.

(** ** Pairing and queue membership along traces *)

(** C3, as stated, fails: a and b are paired and c waits; a asks for a
    match again and is paired with c, while b still names a. *)
Lemma pairing_counterexample :
  ¬ pairing_symmetric_exclusive (run trace_rematch newPeerManager).
Proof.
  intros H.
  destruct (H "b" "a" (mkClient "b" 2 (Some "a") false) (mkClient "a" 1 (Some "c") false))
    as [Hab _]; [by vm_compute..|].
  discriminate Hab.
Qed.

Example rematch_run :
  run trace_rematch newPeerManager
  = {| clients := <["a" := mkClient "a" 1 (Some "c") false]>
                  (<["b" := mkClient "b" 2 (Some "a") false]>
                   {[ "c" := mkClient "c" 3 (Some "a") false ]});
       waitingQueue := [] |}.
Proof. by vm_compute. Qed.

(** C3, amended. Along every sequence of register, matchRequest,
    unregister and endSession operations from the empty registry in which
    an identifier is registered only while it is neither registered nor
    named as [partnerId] by a registered client, and a match is requested
    only for a client without [partnerId] (or an unknown identifier),
    pairing is symmetric and exclusive after every operation (at the end
    of every prefix [t] of such a sequence): if A's [partnerId] is B and
    both are registered, B's [partnerId] is A and neither is in the
    queue. *)
Theorem pairing_invariant t t' :
  admissible_trace (t ++ t') newPeerManager = true →
  pairing_symmetric_exclusive (run t newPeerManager).
Proof.
  intros Ht%admissible_trace_prefix.
  apply Inv_pairing, Inv_run; [apply Inv_init|done].
Qed.

Lemma pairing_invariant_witness :
  admissible_trace trace_sessions newPeerManager = true ∧
  pairing_symmetric_exclusive (run (take 8 trace_sessions) newPeerManager) ∧
  pairing_symmetric_exclusive (run trace_sessions newPeerManager).
Proof.
  split_and!; [by vm_compute| |].
  - apply (pairing_invariant (take 8 trace_sessions) (drop 8 trace_sessions)).
    by vm_compute.
  - apply (pairing_invariant trace_sessions []). by vm_compute.
Defined.

(** C4, as stated, fails: a and b are paired, a asks for a match again and
    is queued, then b is unregistered, which clears a's [isWaiting] flag
    and leaves a in the queue. *)
Lemma queue_membership_counterexample :
  ¬ (queue_is_waiting_set (run trace_requeue newPeerManager) ∧
     NoDup (waitingQueue (run trace_requeue newPeerManager))).
Proof.
  intros [H _]. destruct (H "a") as [H1 _].
  destruct H1 as (c & Hc & Hw).
  - vm_compute. apply list_elem_of_here.
  - vm_compute in Hc. injection Hc as <-. discriminate Hw.
Qed.

Example requeue_run :
  run trace_requeue newPeerManager
  = {| clients := {[ "a" := mkClient "a" 1 None false ]}; waitingQueue := ["a"] |}.
Proof. by vm_compute. Qed.

(** C4, amended. After every sequence of register, matchRequest,
    unregister and endSession operations from the empty registry no
    identifier is in the queue twice. When moreover an identifier is
    registered only while it is neither registered nor named as
    [partnerId] by a registered client, and a match is requested only for a
    client without [partnerId] (or an unknown identifier), the members of
    the queue are, after every operation, exactly the registered clients
    whose [isWaiting] flag is set. *)
Theorem queue_invariant t :
  NoDup (waitingQueue (run t newPeerManager)) ∧
  (∀ t', admissible_trace (t ++ t') newPeerManager = true →
         queue_is_waiting_set (run t newPeerManager)).
Proof.
  split.
  - apply run_NoDup, NoDup_nil_2.
  - intros t' Ht%admissible_trace_prefix.
    apply inv_queue, Inv_run; [apply Inv_init|done].
Qed.

Lemma queue_invariant_witness :
  NoDup (waitingQueue (run trace_sessions newPeerManager)) ∧
  admissible_trace trace_sessions newPeerManager = true ∧
  queue_is_waiting_set (run (take 6 trace_sessions) newPeerManager) ∧
  queue_is_waiting_set (run trace_sessions newPeerManager).
Proof.
  destruct (queue_invariant trace_sessions) as [H1 H2].
  destruct (queue_invariant (take 6 trace_sessions)) as [_ H3].
  split_and!; [exact H1 | by vm_compute | |].
  - apply (H3 (drop 6 trace_sessions)). by vm_compute.
  - apply (H2 []). by vm_compute.
Defined.

Example sessions_run :
  run trace_sessions newPeerManager
  = {| clients := <["a" := mkClient "a" 1 None false]>
                    {[ "b" := mkClient "b" 2 None true ]};
       waitingQueue := ["b"] |}.
Proof. by vm_compute. Qed.

(** ** More on [findPartner]: when it matches and what it touches *)

Lemma available_nil_iff σ cid pm :
  available σ cid pm = [] ↔ ∀ x, x ∈ waitingQueue pm → ¬ eligible σ cid pm x.
Proof.
  split.
  - intros Hnil x Hx He.
    assert (Hin : x ∈ available σ cid pm).
    { apply elem_of_List_filter. split; [done|]. by apply eligible_iff. }
    rewrite Hnil in Hin. by apply elem_of_nil in Hin.
  - intros Hno. destruct (available σ cid pm) as [|p r] eqn:Hav; [done|].
    exfalso. assert (Hp : p ∈ available σ cid pm) by (rewrite Hav; apply list_elem_of_here).
    apply elem_of_List_filter in Hp as [Hq He%eligible_iff]. by apply (Hno p).
Qed.

Lemma findPartner_Some_inv σ cid pm p :
  (findPartner σ cid pm).1 = Some p →
  ∃ c cp, clients pm !! cid = Some c ∧ p ≠ cid ∧ p ∈ waitingQueue pm ∧
          clients pm !! p = Some cp ∧ σ (ws cp) = OPEN ∧
          findPartner σ cid pm = (Some p, matched cid p c pm).
Proof.
  intros Hr. destruct (clients pm !! cid) as [c|] eqn:Hc.
  - destruct (findPartner_cases σ cid pm c Hc)
      as [[_ Hfp]|(p' & r & cp & _ & Hne & Hq & Hcp & Ho & Hfp)];
      rewrite Hfp in Hr; simpl in Hr; [discriminate Hr|].
    injection Hr as ->. by exists c, cp.
  - rewrite findPartner_unknown in Hr by done. discriminate Hr.
Qed.

(** X1. For a registered caller, [findPartner] returns null exactly when
    the queue holds no eligible entry; an identifier it returns was in the
    queue before the call, is not the caller, and belongs to a registered
    client with an open channel. *)
Theorem findPartner_result σ cid pm c :
  clients pm !! cid = Some c →
  ((findPartner σ cid pm).1 = None ↔
   ∀ x, x ∈ waitingQueue pm → ¬ eligible σ cid pm x) ∧
  (∀ p, (findPartner σ cid pm).1 = Some p →
        p ∈ waitingQueue pm ∧ eligible σ cid pm p).
Proof.
  intros Hc. rewrite <- available_nil_iff.
  destruct (findPartner_cases σ cid pm c Hc)
    as [[Hnil ->]|(p & r & cp & Hav & Hne & Hq & Hcp & Ho & ->)]; simpl.
  - split; [done|]. intros p Hp. discriminate Hp.
  - split.
    + rewrite Hav. split; intros H; discriminate H.
    + intros p' [= <-]. split; [done|]. split; [done|]. by exists cp.
Qed.

Lemma findPartner_result_witness :
  (findPartner (closedAt 1) "c" waiting_s).1 = None ∧
  "a" ∈ waitingQueue queue_sab ∧ eligible (closedAt 1) "d" queue_sab "a".
Proof.
  destruct (findPartner_result (closedAt 1) "c" waiting_s (mkClient "c" 2 None false) eq_refl)
    as [H1 _].
  destruct (findPartner_result (closedAt 1) "d" queue_sab (mkClient "d" 4 None false) eq_refl)
    as [_ H2].
  split.
  - apply H1. intros x Hx [Hne (cx & Hcx & Ho)].
    vm_compute in Hx. apply list_elem_of_singleton in Hx as ->.
    vm_compute in Hcx. injection Hcx as <-. vm_compute in Ho. discriminate Ho.
  - apply (H2 "a"). by vm_compute.
Defined.

Lemma enqueue_dom cid c pm :
  dom (clients (enqueue cid c pm)) = dom (clients pm).
Proof.
  unfold enqueue. destruct (_ && _); [|done]. simpl.
  apply set_eq. intros x. by rewrite !elem_of_dom, lookup_alter_is_Some.
Qed.

Lemma findPartner_dom σ cid pm :
  dom (clients (findPartner σ cid pm).2) = dom (clients pm).
Proof.
  destruct (clients pm !! cid) as [c|] eqn:Hc.
  - destruct (findPartner_cases σ cid pm c Hc)
      as [[_ ->]|(p & r & cp & _ & _ & _ & _ & _ & ->)]; simpl.
    + apply enqueue_dom.
    + rewrite <- (enqueue_dom cid c pm). apply set_eq. intros x.
      by rewrite !elem_of_dom, !lookup_alter_is_Some.
  - by rewrite findPartner_unknown.
Qed.

(** X2. [findPartner] never returns the caller itself, never changes the
    set of registered identifiers, and touches no record but the caller's
    and the returned partner's. *)
Theorem findPartner_local σ cid pm :
  (findPartner σ cid pm).1 ≠ Some cid ∧
  dom (clients (findPartner σ cid pm).2) = dom (clients pm) ∧
  (∀ x, x ≠ cid → (findPartner σ cid pm).1 ≠ Some x →
        clients (findPartner σ cid pm).2 !! x = clients pm !! x).
Proof.
  split_and!; [|apply findPartner_dom|].
  - destruct (clients pm !! cid) as [c|] eqn:Hc.
    + destruct (findPartner_cases σ cid pm c Hc)
        as [[_ ->]|(p & r & cp & _ & Hne & _ & _ & _ & ->)]; simpl; congruence.
    + by rewrite findPartner_unknown.
  - intros x Hx Hr. destruct (clients pm !! cid) as [c|] eqn:Hc.
    + destruct (findPartner_cases σ cid pm c Hc)
        as [[_ Hfp]|(p & r & cp & _ & Hne & _ & _ & _ & Hfp)];
        rewrite Hfp in Hr |- *; simpl in *.
      * by apply enqueue_lookup_ne.
      * apply matched_lookup_other; congruence.
    + by rewrite findPartner_unknown.
Qed.

(** X3. After a match neither the caller nor the matched partner is in the
    queue, and every other identifier is queued exactly if it was before;
    the records of both have [isWaiting] cleared and keep their [id] and
    socket. *)
Theorem findPartner_match_dequeues σ cid pm p :
  (findPartner σ cid pm).1 = Some p →
  (cid ∉ waitingQueue (findPartner σ cid pm).2) ∧
  (p ∉ waitingQueue (findPartner σ cid pm).2) ∧
  (∀ x, x ≠ cid → x ≠ p →
        x ∈ waitingQueue (findPartner σ cid pm).2 ↔ x ∈ waitingQueue pm) ∧
  (∃ c cp, clients pm !! cid = Some c ∧ clients pm !! p = Some cp ∧
           clients (findPartner σ cid pm).2 !! cid
           = Some (mkClient (id c) (ws c) (Some p) false) ∧
           clients (findPartner σ cid pm).2 !! p
           = Some (mkClient (id cp) (ws cp) (Some cid) false)).
Proof.
  intros Hr. destruct (clients pm !! cid) as [c|] eqn:Hc.
  - destruct (findPartner_cases σ cid pm c Hc)
      as [[_ Hfp]|(p' & r & cp & _ & Hne & _ & Hcp & _ & Hfp)];
      rewrite Hfp in Hr |- *; simpl in Hr; [discriminate Hr|].
    injection Hr as ->. simpl. split_and!.
    + intros [_ H]%elem_of_List_filter.
      rewrite bool_decide_false in H by (by intros H'). discriminate H.
    + intros [_ H]%elem_of_List_filter.
      rewrite (bool_decide_false (p ≠ p)), andb_false_r in H by (by intros H').
      discriminate H.
    + intros x Hxc Hxp. rewrite elem_of_List_filter, !bool_decide_true by done.
      simpl. split; [by intros [? _]|done].
    + exists c, cp. split_and!; [done|done| |].
      * by apply matched_lookup_self.
      * exact (matched_lookup_partner cid p c cp pm Hcp Hne).
  - rewrite findPartner_unknown in Hr by done. discriminate Hr.
Qed.

Lemma findPartner_match_dequeues_witness :
  ("d" ∉ waitingQueue (findPartner (closedAt 1) "d" queue_sab).2) ∧
  ("a" ∉ waitingQueue (findPartner (closedAt 1) "d" queue_sab).2) ∧
  waitingQueue (findPartner (closedAt 1) "d" queue_sab).2 = ["s"; "b"].
Proof.
  destruct (findPartner_match_dequeues (closedAt 1) "d" queue_sab "a" eq_refl)
    as (H1 & H2 & _ & _).
  split_and!; [exact H1 | exact H2 | reflexivity].
Defined.

(** ** Where a record comes from *)

Lemma alter_record (f : Client → Client) i (m : gmap string Client) x c' :
  (∀ c, id (f c) = id c ∧ ws (f c) = ws c) →
  alter f i m !! x = Some c' →
  ∃ c, m !! x = Some c ∧ id c' = id c ∧ ws c' = ws c.
Proof.
  intros Hf [[-> (c & Hc & ->)]|[_ Hc]]%lookup_alter_Some.
  - exists c. split; [done|]. apply Hf.
  - by exists c'.
Qed.

Lemma findPartner_record σ cid pm x c' :
  clients (findPartner σ cid pm).2 !! x = Some c' →
  ∃ c, clients pm !! x = Some c ∧ id c' = id c ∧ ws c' = ws c.
Proof.
  destruct (clients pm !! cid) as [c|] eqn:Hc.
  - destruct (findPartner_cases σ cid pm c Hc)
      as [[_ ->]|(p & r & cp & _ & Hne & _ & Hcp & _ & ->)]; cbn [snd].
    + destruct (decide (x = cid)) as [->|Hx].
      * destruct (enqueue_lookup_self cid c pm Hc) as (c1 & -> & H1 & H2 & _).
        intros [= <-]. by exists c.
      * rewrite enqueue_lookup_ne by done. intros H. by exists c'.
    + destruct (decide (x = cid)) as [->|Hx].
      { rewrite matched_lookup_self by done. intros [= <-]. by exists c. }
      destruct (decide (x = p)) as [->|Hxp].
      { rewrite (matched_lookup_partner cid p c cp) by done. intros [= <-]. by exists cp. }
      rewrite matched_lookup_other by done. intros H. by exists c'.
  - rewrite findPartner_unknown by done. intros H. by exists c'.
Qed.

Lemma reset_client_keeps c : id (reset_client c) = id c ∧ ws (reset_client c) = ws c.
Proof. done. Qed.

Lemma disconnectPartners_record σ cid pm x c' :
  clients (disconnectPartners σ cid pm).1 !! x = Some c' →
  ∃ c, clients pm !! x = Some c ∧ id c' = id c ∧ ws c' = ws c.
Proof.
  destruct (clients pm !! cid) as [client|] eqn:Hc.
  - destruct (truthy (partnerId client)) as [p|] eqn:Hp.
    + rewrite (disconnectPartners_clients pm σ cid client p) by done.
      intros (c1 & H1 & Hi1 & Hw1)%(alter_record _ _ _ _ _ reset_client_keeps).
      apply (alter_record _ _ _ _ _ reset_client_keeps) in H1 as (c & Hx & Hi & Hw).
      exists c. split; [done|]. split; congruence.
    + unfold disconnectPartners. rewrite Hc, Hp. intros H. by exists c'.
  - unfold disconnectPartners. rewrite Hc. intros H. by exists c'.
Qed.

Lemma disconnectPartners_dom σ cid pm :
  dom (clients (disconnectPartners σ cid pm).1) = dom (clients pm).
Proof.
  destruct (clients pm !! cid) as [client|] eqn:Hc.
  - destruct (truthy (partnerId client)) as [p|] eqn:Hp.
    + rewrite (disconnectPartners_clients pm σ cid client p) by done.
      apply set_eq. intros x. by rewrite !elem_of_dom, !lookup_alter_is_Some.
    + unfold disconnectPartners. by rewrite Hc, Hp.
  - unfold disconnectPartners. by rewrite Hc.
Qed.

Lemma removeClient_record σ cid pm x c' :
  clients (removeClient σ cid pm).1 !! x = Some c' →
  x ≠ cid ∧ ∃ c, clients pm !! x = Some c ∧ id c' = id c ∧ ws c' = ws c.
Proof.
  destruct (clients pm !! cid) as [client|] eqn:Hc.
  - destruct (removeClient_cases pm σ cid client Hc) as [->|(p & partner & _ & _ & ->)]; simpl.
    + intros [Hne Hx]%lookup_delete_Some. split; [done|]. by exists c'.
    + intros [Hne Hx]%lookup_delete_Some. split; [done|].
      by apply (alter_record _ _ _ _ _ reset_client_keeps) in Hx.
  - rewrite removeClient_unknown by done. simpl. intros H.
    split; [congruence|]. by exists c'.
Qed.

Lemma removeClient_dom σ cid pm :
  dom (clients (removeClient σ cid pm).1) = dom (clients pm) ∖ {[cid]}.
Proof.
  destruct (clients pm !! cid) as [client|] eqn:Hc.
  - destruct (removeClient_cases pm σ cid client Hc) as [->|(p & partner & _ & _ & ->)]; simpl.
    + apply dom_delete_L.
    + rewrite dom_delete_L. f_equal.
      apply set_eq. intros x. by rewrite !elem_of_dom, lookup_alter_is_Some.
  - rewrite removeClient_unknown by done. simpl.
    by rewrite <- dom_delete_L, delete_id.
Qed.

Lemma removeClient_sent σ cid pm :
  (removeClient σ cid pm).2 = [] ∨
  ∃ client p partner,
    clients pm !! cid = Some client ∧ partnerOf client = Some p ∧
    clients pm !! p = Some partner ∧ σ (ws partner) = OPEN ∧
    (removeClient σ cid pm).2 = [(ws partner, PartnerDisconnected)].
Proof.
  unfold removeClient, partnerOf. destruct (clients pm !! cid) as [client|] eqn:Hc; [|by left].
  destruct (truthy (partnerId client)) as [p|] eqn:Hp; [|by left].
  destruct (clients pm !! p) as [partner|] eqn:Hpartner; [|by left].
  simpl. destruct (bool_decide_reflect (σ (ws partner) = OPEN)) as [Ho|Ho]; [|by left].
  right. exists client, p, partner. by rewrite Hpartner.
Qed.

(** X4. [removeClient] of a registered client takes exactly that
    identifier out of the registry, and out of a duplicate-free queue,
    keeping the other entries; it sends at most one frame, a
    [partner-disconnected] to the socket of the client's partner, and
    only if that socket is open. *)
Theorem removeClient_removes σ cid pm :
  is_Some (clients pm !! cid) →
  dom (clients (removeClient σ cid pm).1) = dom (clients pm) ∖ {[cid]} ∧
  (NoDup (waitingQueue pm) →
   ∀ x, x ∈ waitingQueue (removeClient σ cid pm).1 ↔ x ∈ waitingQueue pm ∧ x ≠ cid) ∧
  ((removeClient σ cid pm).2 = [] ∨
   ∃ client p partner,
     clients pm !! cid = Some client ∧ partnerOf client = Some p ∧
     clients pm !! p = Some partner ∧ σ (ws partner) = OPEN ∧
     (removeClient σ cid pm).2 = [(ws partner, PartnerDisconnected)]).
Proof.
  intros [client Hc]. split_and!.
  - apply removeClient_dom.
  - intros Hnd x.
    assert (Hq : waitingQueue (removeClient σ cid pm).1
                 = removeFromQueue cid (waitingQueue pm)).
    { by destruct (removeClient_cases pm σ cid client Hc)
        as [->|(p & partner & _ & _ & ->)]. }
    rewrite Hq. by apply elem_of_removeFromQueue.
  - apply removeClient_sent.
Qed.

Lemma removeClient_removes_witness :
  dom (clients (removeClient allOpen "a" queue_sab).1) = dom (clients queue_sab) ∖ {["a"]} ∧
  (∀ x, x ∈ waitingQueue (removeClient allOpen "a" queue_sab).1
        ↔ x ∈ waitingQueue queue_sab ∧ x ≠ "a").
Proof.
  destruct (removeClient_removes allOpen "a" queue_sab) as (H1 & H2 & _).
  - by exists (mkClient "a" 2 None true).
  - split; [exact H1|]. apply H2. apply (bool_decide_unpack _). by vm_compute.
Defined.

Lemma removeClient_partner_open_witness :
  clients (removeClient allOpen "a" paired_ab).1 !! "b" = Some (mkClient "b" 2 None false) ∧
  (removeClient allOpen "a" paired_ab).2 = [(2, PartnerDisconnected)].
Proof.
  apply (removeClient_partner_open allOpen "a" "b"
           (mkClient "a" 1 (Some "b") false) (mkClient "b" 2 (Some "a") false) paired_ab);
    [reflexivity | reflexivity | discriminate | reflexivity | reflexivity].
Defined.

(** X6. Ending a session twice is ending it once: after
    [disconnectPartners] a second call for the same client, in whatever
    state the sockets are, changes nothing and sends nothing. *)
Theorem disconnectPartners_idempotent σ σ' cid pm :
  disconnectPartners σ' cid (disconnectPartners σ cid pm).1
  = ((disconnectPartners σ cid pm).1, []).
Proof.
  assert (Hnoop : ∀ pm0, (∀ c, clients pm0 !! cid = Some c → truthy (partnerId c) = None) →
                         disconnectPartners σ' cid pm0 = (pm0, [])).
  { intros pm0 H. unfold disconnectPartners.
    destruct (clients pm0 !! cid) as [c|]; [|done]. by rewrite (H c eq_refl). }
  apply Hnoop. intros c.
  destruct (clients pm !! cid) as [client|] eqn:Hc.
  - destruct (truthy (partnerId client)) as [p|] eqn:Hp.
    + rewrite (disconnectPartners_clients pm σ cid client p), lookup_alter_eq by done.
      destruct (alter reset_client p (clients pm) !! cid); simpl; [|done].
      by intros [= <-].
    + unfold disconnectPartners. rewrite Hc, Hp. simpl. rewrite Hc. by intros [= <-].
  - unfold disconnectPartners. rewrite Hc. simpl. by rewrite Hc.
Qed.

(** X7. No operation other than registering that identifier anew changes
    the [id] or the socket of a registered client: pairing, waiting and
    teardown only touch [partnerId] and [isWaiting]. *)
Theorem step_keeps_socket σ o pm x c c' :
  clients pm !! x = Some c →
  clients (step σ o pm) !! x = Some c' →
  (∀ w, o ≠ Register x w) →
  id c' = id c ∧ ws c' = ws c.
Proof.
  intros Hx Hx' Hreg. destruct o as [cid w|cid|cid|cid]; simpl in Hx'.
  - rewrite lookup_insert_ne in Hx'; [by simplify_eq|].
    intros ->. by apply (Hreg w).
  - apply findPartner_record in Hx' as (c0 & ? & ? & ?). by simplify_eq.
  - apply removeClient_record in Hx' as (_ & c0 & ? & ? & ?). by simplify_eq.
  - apply disconnectPartners_record in Hx' as (c0 & ? & ? & ?). by simplify_eq.
Qed.

Lemma step_keeps_socket_witness :
  ∃ c', clients (step (closedAt 1) (MatchRequest "d") queue_sab) !! "a" = Some c' ∧
        id c' = "a" ∧ ws c' = 2 ∧ partnerId c' = Some "d".
Proof.
  exists (mkClient "a" 2 (Some "d") false).
  destruct (step_keeps_socket (closedAt 1) (MatchRequest "d") queue_sab "a"
              (mkClient "a" 2 None true) (mkClient "a" 2 (Some "d") false))
    as [H1 H2]; [reflexivity | by vm_compute | intros w; discriminate |].
  split_and!; [by vm_compute | exact H1 | exact H2 | reflexivity].
Defined.

(** ** What holds in every run *)

Lemma Sane_init : Sane newPeerManager.
Proof.
  split; unfold newPeerManager; simpl.
  - apply NoDup_nil_2.
  - intros x Hx. by apply elem_of_nil in Hx.
  - intros k c Hk. by apply lookup_empty_Some in Hk.
Qed.

Lemma findPartner_queue_subset σ cid pm x :
  x ∈ waitingQueue (findPartner σ cid pm).2 →
  x ∈ waitingQueue pm ∨ (x = cid ∧ is_Some (clients pm !! cid)).
Proof.
  destruct (clients pm !! cid) as [c|] eqn:Hc.
  - destruct (findPartner_cases σ cid pm c Hc)
      as [[_ ->]|(p & r & cp & _ & _ & _ & _ & _ & ->)]; cbn [snd].
    + destruct (enqueue_queue cid c pm) as [->|(_ & _ & ->)]; [by left|].
      intros [Hx|Hx%list_elem_of_singleton]%elem_of_app; [by left|by right].
    + rewrite matched_queue. intros [Hx _]%elem_of_List_filter. by left.
  - rewrite findPartner_unknown by done. by left.
Qed.

Lemma Sane_step σ o pm : Sane pm → Sane (step σ o pm).
Proof.
  intros [Hnd Hreg Hid]. split.
  - by apply step_NoDup.
  - intros x Hx. destruct o as [cid w|cid|cid|cid]; simpl in *.
    + apply lookup_insert_is_Some'. right. by apply Hreg.
    + apply elem_of_dom. rewrite findPartner_dom. apply elem_of_dom.
      apply findPartner_queue_subset in Hx as [Hx|[-> Hx]]; [by apply Hreg|done].
    + apply elem_of_dom. rewrite removeClient_dom.
      destruct (clients pm !! cid) as [client|] eqn:Hc.
      * assert (Hq : waitingQueue (removeClient σ cid pm).1
                     = removeFromQueue cid (waitingQueue pm)).
        { by destruct (removeClient_cases pm σ cid client Hc)
            as [->|(p & partner & _ & _ & ->)]. }
        rewrite Hq in Hx. apply elem_of_removeFromQueue in Hx as [Hx Hne]; [|done].
        apply elem_of_difference. split; [by apply elem_of_dom, Hreg|].
        by intros ->%elem_of_singleton.
      * rewrite removeClient_unknown in Hx by done.
        apply elem_of_difference. split; [by apply elem_of_dom, Hreg|].
        intros ->%elem_of_singleton. apply Hreg in Hx as [c Hx]. congruence.
    + apply elem_of_dom. rewrite disconnectPartners_dom. apply elem_of_dom.
      rewrite disconnectPartners_queue in Hx. by apply Hreg.
  - intros k c' Hk. destruct o as [cid w|cid|cid|cid]; simpl in *.
    + apply lookup_insert_Some in Hk as [[<- <-]|[_ Hk]]; [done|by apply Hid].
    + apply findPartner_record in Hk as (c & Hc & -> & _). by apply Hid.
    + apply removeClient_record in Hk as (_ & c & Hc & -> & _). by apply Hid.
    + apply disconnectPartners_record in Hk as (c & Hc & -> & _). by apply Hid.
Qed.

Lemma Sane_run t pm : Sane pm → Sane (run t pm).
Proof.
  revert pm. induction t as [|[σ o] t IH]; intros pm HS; simpl; [done|].
  by apply IH, Sane_step.
Qed.

(** The effect of a message on the registry, by kind. *)
Lemma handleMessage_state σ now cid w m pm :
  (handleMessage σ now cid w m pm).1 =
  if bool_decide (type m = "find-partner")
  then (findPartner σ cid (ensureClient cid w pm)).2
  else if bool_decide (type m = "end-chat")
       then (disconnectPartners σ cid (ensureClient cid w pm)).1
       else ensureClient cid w pm.
Proof.
  unfold handleMessage, dispatch, handleEndChat.
  destruct (bool_decide (type m = "find-partner")) eqn:H1.
  { apply handleFindPartner_state. }
  apply bool_decide_eq_false in H1.
  destruct (bool_decide_reflect (type m = "end-chat")) as [H2|H2].
  { rewrite H2. reflexivity. }
  repeat (destruct (bool_decide _); [reflexivity|]). reflexivity.
Qed.

Lemma ensureClient_step cid w pm :
  ensureClient cid w pm = pm ∨ ensureClient cid w pm = step allOpen (Register cid w) pm.
Proof. unfold ensureClient. destruct (getClient cid pm); [by left|by right]. Qed.

Lemma Sane_ensureClient cid w pm : Sane pm → Sane (ensureClient cid w pm).
Proof.
  intros HS. destruct (ensureClient_step cid w pm) as [->| ->]; [done|].
  by apply Sane_step.
Qed.

Lemma Sane_handleMessage σ now cid w m pm :
  Sane pm → Sane (handleMessage σ now cid w m pm).1.
Proof.
  intros HS%(Sane_ensureClient cid w). rewrite handleMessage_state.
  destruct (bool_decide _).
  - apply (Sane_step σ (MatchRequest cid) _ HS).
  - destruct (bool_decide _); [|done].
    apply (Sane_step σ (EndSession cid) _ HS).
Qed.

Lemma Sane_serve σ now ev pm : Sane pm → Sane (serve σ now ev pm).1.
Proof.
  intros HS. destruct ev as [cid w|cid w [| |m]|cid]; simpl; try done.
  - by apply Sane_ensureClient.
  - by apply Sane_handleMessage.
  - apply (Sane_step σ (Unregister cid) _ HS).
Qed.

Lemma Sane_count pm : Sane pm → (getWaitingCount pm ≤ size (clients pm))%nat.
Proof.
  intros [Hnd Hreg _]. unfold getWaitingCount.
  rewrite <- (size_dom (D := gset string)). unfold size, set_size. simpl.
  apply submseteq_length, NoDup_submseteq; [done|].
  intros x Hx. apply elem_of_elements, elem_of_dom. by apply Hreg.
Qed.

(** X8. Whatever events the server handles, starting with an empty
    registry (connections, parsable and unparsable frames of any kind from
    any identifier, closes, with the sockets in any state): no identifier
    is in the waiting queue twice, every queued identifier is a registered
    client, every record is stored under its own [id], and
    [getWaitingCount] never exceeds the number of registered clients. *)
Theorem serve_all_sane t :
  Sane (serve_all t newPeerManager) ∧
  (getWaitingCount (serve_all t newPeerManager)
   ≤ size (clients (serve_all t newPeerManager)))%nat.
Proof.
  assert (HS : ∀ pm, Sane pm → Sane (serve_all t pm)).
  { induction t as [|[[σ now] ev] t IH]; intros pm HS; simpl; [done|].
    by apply IH, Sane_serve. }
  specialize (HS _ Sane_init). split; [done|]. by apply Sane_count.
Qed.

Example session_events_run :
  serve_all session_events newPeerManager
  = {| clients := <["a" := mkClient "a" 1 None true]>
                    {[ "c" := mkClient "c" 3 None false ]};
       waitingQueue := ["a"] |}.
Proof. by vm_compute. Qed.

(** ** What the signaling service sends *)

(** X9. The frames of a [find-partner] request: without a match the
    sender is told to wait; with a match (a non-empty identifier) the
    sender's socket gets [partner-found] naming the partner and the
    partner's socket gets [partner-found] naming the sender, in this
    order. A matched partner whose identifier is the empty string is
    falsy for [if (partnerId)], and the sender is told to wait although
    the registry has paired the two. *)
Theorem handleFindPartner_frames σ cid w pm :
  ((findPartner σ cid pm).1 = None →
   (handleFindPartner σ cid w pm).2 = [(w, WaitingForPartner)]) ∧
  (∀ p, (findPartner σ cid pm).1 = Some p → p ≠ EmptyString →
        ∃ cp, clients pm !! p = Some cp ∧
              (handleFindPartner σ cid w pm).2
              = [(w, PartnerFound p); (ws cp, PartnerFound cid)]) ∧
  ((findPartner σ cid pm).1 = Some EmptyString →
   (handleFindPartner σ cid w pm).2 = [(w, WaitingForPartner)]).
Proof.
  split_and!.
  - intros Hr. unfold handleFindPartner.
    destruct (findPartner σ cid pm) as [r pm']. simpl in Hr. by rewrite Hr.
  - intros p Hr Hne.
    destruct (findPartner_Some_inv σ cid pm p Hr)
      as (c & cp & Hc & Hpc & _ & Hcp & Ho & Hfp).
    exists cp. split; [done|]. unfold handleFindPartner, getClient. rewrite Hfp.
    assert (Ht : truthy (Some p) = Some p) by (by destruct p).
    rewrite Ht, (matched_lookup_partner cid p c cp pm Hcp Hpc).
    simpl. by rewrite bool_decide_true.
  - intros Hr. unfold handleFindPartner.
    destruct (findPartner σ cid pm) as [r pm']. simpl in Hr. by rewrite Hr.
Qed.

Lemma handleFindPartner_frames_witness :
  (handleFindPartner (closedAt 1) "c" 2 waiting_s).2 = [(2, WaitingForPartner)] ∧
  ∃ cp, clients queue_sab !! "a" = Some cp ∧
        (handleFindPartner (closedAt 1) "d" 4 queue_sab).2
        = [(4, PartnerFound "a"); (ws cp, PartnerFound "d")].
Proof.
  destruct (handleFindPartner_frames (closedAt 1) "c" 2 waiting_s) as (H1 & _ & _).
  destruct (handleFindPartner_frames (closedAt 1) "d" 4 queue_sab) as (_ & H2 & _).
  split; [apply H1; reflexivity|].
  apply (H2 "a"); [reflexivity|discriminate].
Defined.

Lemma dispatch_chat σ now cid w m pm :
  type m = "chat-message" →
  dispatch σ now cid w m pm = (pm, forwardChatMessage σ now cid (message m) pm).
Proof. intros H. unfold dispatch. rewrite H. reflexivity. Qed.

Lemma getPartner_live cid pm c p cp :
  clients pm !! cid = Some c → partnerOf c = Some p → clients pm !! p = Some cp →
  getPartner cid pm = Some cp.
Proof. intros Hc Hp Hcp. unfold getPartner, partnerOf in *. by rewrite Hc, Hp. Qed.

(** X10. An [offer], [answer] or [ice-candidate] message of a client with
    a registered partner is forwarded unchanged to the partner's socket,
    and to no other, exactly when that socket is open; the registry is
    not changed. *)
Theorem relay_to_partner σ now cid w m pm c p cp :
  type m = "offer" ∨ type m = "answer" ∨ type m = "ice-candidate" →
  clients pm !! cid = Some c → partnerOf c = Some p → clients pm !! p = Some cp →
  handleMessage σ now cid w m pm
  = (pm, if bool_decide (σ (ws cp) = OPEN) then [(ws cp, Relay m)] else []).
Proof.
  intros Hty Hc Hp Hcp. unfold handleMessage.
  rewrite ensureClient_known by (by rewrite Hc).
  rewrite dispatch_relay by done. unfold forwardToPartner.
  by rewrite (getPartner_live cid pm c p cp).
Qed.

Lemma relay_to_partner_witness :
  handleMessage allOpen "t" "a" 1 offer paired_ab = (paired_ab, [(2, Relay offer)]) ∧
  handleMessage (closedAt 2) "t" "a" 1 offer paired_ab = (paired_ab, []).
Proof.
  split.
  - apply (relay_to_partner allOpen "t" "a" 1 offer paired_ab
             (mkClient "a" 1 (Some "b") false) "b" (mkClient "b" 2 (Some "a") false));
      [by left | reflexivity..].
  - apply (relay_to_partner (closedAt 2) "t" "a" 1 offer paired_ab
             (mkClient "a" 1 (Some "b") false) "b" (mkClient "b" 2 (Some "a") false));
      [by left | reflexivity..].
Defined.

(** X11. A [chat-message] of a client with a registered partner reaches
    the partner's socket alone, as a [chat-message] frame carrying the
    text of the message and the time of the server, exactly when that
    socket is open; from a client without a live partner it is dropped.
    In both cases the registry is not changed. *)
Theorem chat_to_partner σ now cid w m pm c :
  type m = "chat-message" →
  clients pm !! cid = Some c →
  (∀ p cp, partnerOf c = Some p → clients pm !! p = Some cp →
           handleMessage σ now cid w m pm
           = (pm, if bool_decide (σ (ws cp) = OPEN)
                  then [(ws cp, ChatMessage (message m) now)] else [])) ∧
  (partnerId c = None ∨ (∃ p, partnerId c = Some p ∧ clients pm !! p = None) →
   handleMessage σ now cid w m pm = (pm, [])).
Proof.
  intros Hty Hc. unfold handleMessage.
  rewrite ensureClient_known by (by rewrite Hc).
  rewrite dispatch_chat by done. unfold forwardChatMessage. split.
  - intros p cp Hp Hcp. by rewrite (getPartner_live cid pm c p cp).
  - intros Hno. rewrite getPartner_no_live_partner; [done|].
    intros c' Hc'. by simplify_eq.
Qed.

Lemma chat_to_partner_witness :
  handleMessage allOpen "t" "a" 1 (chat "hi") paired_ab
  = (paired_ab, [(2, ChatMessage "hi" "t")]) ∧
  handleMessage allOpen "t" "c" 2 (chat "hi") waiting_s = (waiting_s, []).
Proof.
  destruct (chat_to_partner allOpen "t" "a" 1 (chat "hi") paired_ab
              (mkClient "a" 1 (Some "b") false) eq_refl eq_refl) as [H1 _].
  destruct (chat_to_partner allOpen "t" "c" 2 (chat "hi") waiting_s
              (mkClient "c" 2 None false) eq_refl eq_refl) as [_ H2].
  split.
  - apply (H1 "b" (mkClient "b" 2 (Some "a") false)); reflexivity.
  - apply H2. by left.
Defined.

Lemma ensureClient_dom cid w pm :
  dom (clients (ensureClient cid w pm)) = {[cid]} ∪ dom (clients pm).
Proof.
  unfold ensureClient, getClient. destruct (clients pm !! cid) as [c|] eqn:Hc.
  - apply set_eq. intros x. rewrite elem_of_union, elem_of_singleton, !elem_of_dom.
    split; [by right|]. intros [->|H]; [by rewrite Hc|done].
  - simpl. apply dom_insert_L.
Qed.

(** X12. Whatever the message, the router never unregisters anyone and
    registers nobody but the sender: after [handleMessage] the registered
    identifiers are those before together with the sender's. *)
Theorem handleMessage_dom σ now cid w m pm :
  dom (clients (handleMessage σ now cid w m pm).1) = {[cid]} ∪ dom (clients pm).
Proof.
  rewrite handleMessage_state, <- (ensureClient_dom cid w).
  destruct (bool_decide _); [apply findPartner_dom|].
  destruct (bool_decide _); [apply disconnectPartners_dom|done].
Qed.

Lemma forward_sent_open σ cid m pm s :
  s ∈ forwardToPartner σ cid m pm → σ s.1 = OPEN.
Proof.
  unfold forwardToPartner. destruct (getPartner cid pm) as [partner|]; simpl.
  - destruct (bool_decide_reflect (σ (ws partner) = OPEN)) as [Ho|Ho].
    + by intros ->%list_elem_of_singleton.
    + by intros H%elem_of_nil.
  - by intros H%elem_of_nil.
Qed.

Lemma chat_sent_open σ now cid text pm s :
  s ∈ forwardChatMessage σ now cid text pm → σ s.1 = OPEN.
Proof.
  unfold forwardChatMessage. destruct (getPartner cid pm) as [partner|]; simpl.
  - destruct (bool_decide_reflect (σ (ws partner) = OPEN)) as [Ho|Ho].
    + by intros ->%list_elem_of_singleton.
    + by intros H%elem_of_nil.
  - by intros H%elem_of_nil.
Qed.

Lemma disconnectPartners_sent_open σ cid pm s :
  s ∈ (disconnectPartners σ cid pm).2 → σ s.1 = OPEN.
Proof.
  unfold disconnectPartners. destruct (clients pm !! cid) as [client|]; simpl;
    [|by intros H%elem_of_nil].
  destruct (truthy (partnerId client)) as [p|]; simpl; [|by intros H%elem_of_nil].
  destruct (clients pm !! p) as [partner|]; simpl; [|by intros H%elem_of_nil].
  destruct (bool_decide_reflect (σ (ws partner) = OPEN)) as [Ho|Ho].
  - by intros ->%list_elem_of_singleton.
  - by intros H%elem_of_nil.
Qed.

Lemma handleFindPartner_sent_open σ cid w pm s :
  s ∈ (handleFindPartner σ cid w pm).2 → s.1 = w ∨ σ s.1 = OPEN.
Proof.
  unfold handleFindPartner. destruct (findPartner σ cid pm) as [r pm'].
  destruct (truthy r) as [p|]; simpl.
  - destruct (getClient p pm') as [pc|]; simpl; [|by intros H%elem_of_nil].
    destruct (bool_decide_reflect (σ (ws pc) = OPEN)) as [Ho|Ho]; simpl.
    + intros [->|[->|H%elem_of_nil]%elem_of_cons]%elem_of_cons; [by left|by right|done].
    + by intros H%elem_of_nil.
  - intros ->%list_elem_of_singleton. by left.
Qed.

(** X13. The router never writes to a socket it has seen closed: every
    frame [handleMessage] sends goes to a socket whose state is open,
    with the only exception of the reply to the sender of a
    [find-partner] message, which is written to the sender's own socket
    unchecked. At most two frames are sent for one message. *)
Theorem handleMessage_sends_open σ now cid w m pm :
  (∀ s, s ∈ (handleMessage σ now cid w m pm).2 →
        (type m = "find-partner" ∧ s.1 = w) ∨ σ s.1 = OPEN) ∧
  (length (handleMessage σ now cid w m pm).2 ≤ 2)%nat.
Proof.
  unfold handleMessage, dispatch, handleEndChat.
  destruct (bool_decide_reflect (type m = "find-partner")) as [H1|H1].
  { split.
    - intros s [Hs|Hs]%handleFindPartner_sent_open; [by left|by right].
    - unfold handleFindPartner.
      destruct (findPartner σ cid (ensureClient cid w pm)) as [r pm'].
      destruct (truthy r) as [p|]; simpl; [|lia].
      destruct (getClient p pm') as [pc|]; simpl; [|lia].
      destruct (bool_decide _); simpl; lia. }
  assert (Hfw : ∀ out : list Sent,
             (∀ s, s ∈ out → σ s.1 = OPEN) → (length out ≤ 1)%nat →
             (∀ s, s ∈ out → (type m = "find-partner" ∧ s.1 = w) ∨ σ s.1 = OPEN) ∧
             (length out ≤ 2)%nat).
  { intros out Ho Hl. split; [|lia]. intros s Hs. right. by apply Ho. }
  assert (Hl1 : ∀ cid' m', (length (forwardToPartner σ cid' m' (ensureClient cid w pm)) ≤ 1)%nat).
  { intros. unfold forwardToPartner. destruct (getPartner _ _); simpl; [|lia].
    destruct (bool_decide _); simpl; lia. }
  repeat (destruct (bool_decide _);
          [simpl; apply Hfw; [intros s; apply forward_sent_open|apply Hl1]|]).
  destruct (bool_decide _).
  { simpl. apply Hfw; [intros s; apply chat_sent_open|].
    unfold forwardChatMessage. destruct (getPartner _ _); simpl; [|lia].
    destruct (bool_decide _); simpl; lia. }
  destruct (bool_decide _).
  { apply Hfw; [intros s; apply disconnectPartners_sent_open|].
    unfold disconnectPartners. destruct (clients _ !! cid) as [client|]; simpl; [|lia].
    destruct (truthy _) as [p|]; simpl; [|lia].
    destruct (clients _ !! p) as [partner|]; simpl; [|lia].
    destruct (bool_decide _); simpl; lia. }
  simpl. split; [|lia]. by intros s H%elem_of_nil.
Qed.

(** ** The invariant under the router *)

Lemma Inv_ensureClient cid w pm :
  Inv pm →
  (clients pm !! cid = None →
   map_Forall (λ _ c, partnerId c ≠ Some cid) (clients pm)) →
  Inv (ensureClient cid w pm).
Proof.
  intros HI Hfresh. unfold ensureClient, getClient.
  destruct (clients pm !! cid) as [c|] eqn:Hc; [done|].
  apply Inv_addClient; auto.
Qed.

(** X14. The router keeps pairing symmetric and exclusive and the queue
    equal to the set of waiting clients: if the state invariant holds
    before a message, the sender is registered or its identifier is named
    by no registered client, and a [find-partner] message comes from a
    client whose [partnerId] is unset, then the invariant holds after
    [handleMessage], whatever the kind of the message and the state of the
    sockets. *)
Theorem handleMessage_keeps_Inv σ now cid w m pm :
  Inv pm →
  (clients pm !! cid = None →
   map_Forall (λ _ c, partnerId c ≠ Some cid) (clients pm)) →
  (type m = "find-partner" → ∀ c, clients pm !! cid = Some c → partnerId c = None) →
  Inv (handleMessage σ now cid w m pm).1 ∧
  pairing_symmetric_exclusive (handleMessage σ now cid w m pm).1 ∧
  queue_is_waiting_set (handleMessage σ now cid w m pm).1.
Proof.
  intros HI Hfresh Hfind.
  assert (HI' : Inv (handleMessage σ now cid w m pm).1).
  { pose proof (Inv_ensureClient cid w pm HI Hfresh) as HI0.
    rewrite handleMessage_state.
    destruct (bool_decide_reflect (type m = "find-partner")) as [Hty|Hty].
    - apply Inv_findPartner; [done|]. intros c.
      unfold ensureClient, getClient.
      destruct (clients pm !! cid) as [c0|] eqn:Hc.
      + rewrite Hc. intros [= <-]. by apply (Hfind Hty).
      + simpl. rewrite lookup_insert_eq. by intros [= <-].
    - destruct (bool_decide _); [|done]. by apply Inv_disconnectPartners. }
  split_and!; [done|by apply Inv_pairing|by apply inv_queue].
Qed.

Lemma handleMessage_keeps_Inv_witness :
  pairing_symmetric_exclusive (handleMessage allOpen "t" "c" 2 find_partner waiting_s).1 ∧
  queue_is_waiting_set (handleMessage allOpen "t" "c" 2 find_partner waiting_s).1.
Proof.
  destruct (handleMessage_keeps_Inv allOpen "t" "c" 2 find_partner waiting_s)
    as (_ & H1 & H2).
  - apply (Inv_run [(allOpen, Register "s" 1); (allOpen, Register "c" 2);
                    (allOpen, MatchRequest "s")] newPeerManager Inv_init).
    by vm_compute.
  - intros Hc. vm_compute in Hc. discriminate Hc.
  - intros _ c Hc. vm_compute in Hc. by injection Hc as <-.
  - by split.
Defined.

(** X15. In a registry reached by an admissible sequence of operations
    the partner relation read by [getPartner] is symmetric: the partner of
    a client with a non-empty identifier is another client, stored under
    its own [id], whose partner is the first client again. *)
Theorem getPartner_symmetric t a cb :
  admissible_trace t newPeerManager = true →
  a ≠ EmptyString →
  getPartner a (run t newPeerManager) = Some cb →
  id cb ≠ a ∧
  clients (run t newPeerManager) !! id cb = Some cb ∧
  ∃ ca, clients (run t newPeerManager) !! a = Some ca ∧
        getPartner (id cb) (run t newPeerManager) = Some ca.
Proof.
  intros Ht Ha Hg.
  pose proof (Inv_run t newPeerManager Inv_init Ht) as HI.
  pose proof (Sane_run t newPeerManager Sane_init) as HS.
  set (pm := run t newPeerManager) in *.
  unfold getPartner in Hg.
  destruct (clients pm !! a) as [ca|] eqn:Hca; [|done].
  destruct (truthy (partnerId ca)) as [p|] eqn:Hp; [|done].
  apply truthy_Some in Hp.
  pose proof (sane_id pm HS p cb Hg) as Hid. rewrite Hid.
  destruct (Inv_partner_idle pm HI a ca p cb Hca Hp Hg) as (Hba & _ & Hne).
  split_and!; [done|done|].
  exists ca. split; [done|]. unfold getPartner. rewrite Hg, Hba.
  assert (Hta : truthy (Some a) = Some a) by (by destruct a).
  by rewrite Hta.
Qed.

Lemma getPartner_symmetric_witness :
  getPartner "a" paired_ab = Some (mkClient "b" 2 (Some "a") false) ∧
  ∃ ca, clients paired_ab !! "a" = Some ca ∧ getPartner "b" paired_ab = Some ca.
Proof.
  split; [reflexivity|].
  destruct (getPartner_symmetric
              [(allOpen, Register "a" 1); (allOpen, Register "b" 2);
               (allOpen, MatchRequest "a"); (allOpen, MatchRequest "b")]
              "a" (mkClient "b" 2 (Some "a") false))
    as (_ & _ & H); [by vm_compute | discriminate | reflexivity |].
  exact H.
Defined.

(** ** The content monitor *)

Module ChildSafetyFacts.
Import ChildSafety.

(** X16. [escalateThreatLevel] is the maximum in the order none < low <
    medium < high < critical: its index is the larger of the two indices,
    so it never lowers a level, and it is commutative, associative and
    idempotent. *)
Theorem escalateThreatLevel_max a b c :
  levelIndex (escalateThreatLevel a b) = Z.max (levelIndex a) (levelIndex b) ∧
  escalateThreatLevel a b = escalateThreatLevel b a ∧
  escalateThreatLevel a (escalateThreatLevel b c)
  = escalateThreatLevel (escalateThreatLevel a b) c ∧
  escalateThreatLevel a a = a.
Proof. destruct a, b, c; by vm_compute. Qed.

Lemma scanPatterns_spec patterns msg t :
  scanPatterns patterns msg t
  = if existsb (λ re : string → bool, re msg) patterns
    then escalateThreatLevel t medium else t.
Proof.
  unfold scanPatterns. revert t.
  induction patterns as [|re patterns IH]; intros t; simpl; [done|].
  rewrite IH. destruct (re msg); simpl; [|done].
  destruct (existsb _ patterns); [|done]. by destruct t.
Qed.

Lemma analyzeMessage_reported now now' msg u mon :
  reportedUsers (analyzeMessage now now' msg u mon).2 = reportedUsers mon.
Proof.
  unfold analyzeMessage. rewrite scanPatterns_spec.
  destruct (existsb _ (suspiciousPatterns mon));
    destruct (activeConnections mon !! u) as [uc|];
    try destruct (now - timestamp uc <? 1000)%Z;
    simpl; destruct (bool_decide _); done.
Qed.

Lemma analyzeMessage_of_reported now now' msg u mon :
  u ∈ reportedUsers mon →
  action (analyzeMessage now now' msg u mon).1 = disconnect ∧
  isAllowed (analyzeMessage now now' msg u mon).1 = false.
Proof.
  intros Hu. unfold analyzeMessage. rewrite scanPatterns_spec.
  destruct (existsb _ (suspiciousPatterns mon));
    destruct (activeConnections mon !! u) as [uc|];
    try destruct (now - timestamp uc <? 1000)%Z;
    simpl; rewrite ?bool_decide_true; try done;
    apply elem_of_union; by right.
Qed.

(** X17. The level [analyzeMessage] reports is medium when some pattern
    matches the message, low when none matches and the message comes less
    than a second after the user's last one, and none otherwise. It is
    never high or critical, so [analyzeMessage] never adds a user to the
    reported set; it changes neither the patterns nor the blocked
    content. *)
Theorem analyzeMessage_level now now' msg u mon :
  threatLevel (analyzeMessage now now' msg u mon).1
  = (if suspicious msg mon then medium
     else if rapid now u mon then low else none) ∧
  reportedUsers (analyzeMessage now now' msg u mon).2 = reportedUsers mon ∧
  suspiciousPatterns (analyzeMessage now now' msg u mon).2 = suspiciousPatterns mon ∧
  blockedContent (analyzeMessage now now' msg u mon).2 = blockedContent mon.
Proof.
  unfold analyzeMessage, suspicious, rapid. rewrite scanPatterns_spec.
  destruct (existsb _ (suspiciousPatterns mon));
    destruct (activeConnections mon !! u) as [uc|];
    try destruct (now - timestamp uc <? 1000)%Z;
    simpl; destruct (bool_decide _); done.
Qed.

(** X18. The decision of [analyzeMessage]: a user in the reported set is
    disconnected whatever the message; otherwise a message matching a
    pattern is blocked, a rapid message matching none draws a warning and
    any other message is allowed. The message is allowed exactly when the
    action is allow or warn, and a reason is given exactly when it is
    not allowed. *)
Theorem analyzeMessage_action now now' msg u mon :
  action (analyzeMessage now now' msg u mon).1
  = (if bool_decide (u ∈ reportedUsers mon) then disconnect
     else if suspicious msg mon then block
     else if rapid now u mon then warn else allow) ∧
  isAllowed (analyzeMessage now now' msg u mon).1
  = negb (bool_decide (u ∈ reportedUsers mon)) && negb (suspicious msg mon) ∧
  (isAllowed (analyzeMessage now now' msg u mon).1 = true ↔
   reason (analyzeMessage now now' msg u mon).1 = None).
Proof.
  unfold analyzeMessage, suspicious, rapid. rewrite scanPatterns_spec.
  destruct (existsb _ (suspiciousPatterns mon));
    destruct (activeConnections mon !! u) as [uc|];
    try destruct (now - timestamp uc <? 1000)%Z;
    simpl; destruct (bool_decide _); simpl; split_and!; try done;
    split; intros H; discriminate H.
Qed.

(** X19. The warnings of a user count its rapid messages: [analyzeMessage]
    adds one to [getConnectionWarnings] of the sender exactly when the
    message is rapid, starts a user it has not seen at zero, records the
    time of the message, and leaves the entries of all other users as
    they are. *)
Theorem analyzeMessage_warnings now now' msg u mon :
  getConnectionWarnings u (analyzeMessage now now' msg u mon).2
  = (getConnectionWarnings u mon + if rapid now u mon then 1 else 0)%nat ∧
  (timestamp <$> activeConnections (analyzeMessage now now' msg u mon).2 !! u)
  = Some (match activeConnections mon !! u with Some _ => now' | None => now end) ∧
  (∀ v, v ≠ u →
        activeConnections (analyzeMessage now now' msg u mon).2 !! v
        = activeConnections mon !! v).
Proof.
  unfold analyzeMessage, getConnectionWarnings, rapid.
  destruct (activeConnections mon !! u) as [uc|] eqn:Hu;
    try destruct (now - timestamp uc <? 1000)%Z;
    destruct (scanPatterns _ _ _); try destruct (escalateThreatLevel _ _);
    simpl; destruct (bool_decide _); simpl;
    rewrite ?lookup_insert_eq; simpl;
    (split_and!; [lia|done|by intros v Hv; rewrite lookup_insert_ne]).
Qed.

(** X20. Reports are permanent and decide alone: once [reportUser] has
    named a user, [isUserBlocked] holds and every later message of that
    user, whatever its text and timing, is answered with disconnect and
    not allowed; neither [analyzeMessage] nor [disconnectUser] takes a
    user out of the reported set. [disconnectUser] forgets the user's
    connection: its warnings read zero and its next message is not
    rapid. *)
Theorem reportUser_permanent now now' msg u v why mon :
  isUserBlocked u (reportUser u why mon) = true ∧
  action (analyzeMessage now now' msg u (reportUser u why mon)).1 = disconnect ∧
  isAllowed (analyzeMessage now now' msg u (reportUser u why mon)).1 = false ∧
  isUserBlocked u (analyzeMessage now now' msg v mon).2 = isUserBlocked u mon ∧
  isUserBlocked u (disconnectUser v mon) = isUserBlocked u mon ∧
  getConnectionWarnings v (disconnectUser v mon) = 0%nat ∧
  rapid now v (disconnectUser v mon) = false.
Proof.
  assert (Hin : u ∈ reportedUsers (reportUser u why mon)).
  { simpl. apply elem_of_union. left. by apply elem_of_singleton. }
  destruct (analyzeMessage_of_reported now now' msg u (reportUser u why mon) Hin)
    as [Ha Hal].
  pose proof (analyzeMessage_reported now now' msg v mon) as Hrep.
  split_and!.
  - unfold isUserBlocked. by rewrite bool_decide_true.
  - exact Ha.
  - exact Hal.
  - unfold isUserBlocked. by rewrite Hrep.
  - done.
  - unfold getConnectionWarnings. simpl. by rewrite lookup_delete_eq.
  - unfold rapid. simpl. by rewrite lookup_delete_eq.
Qed.

Example analyzeMessage_sample :
  (analyzeMessage 5400 5401 "phone" "u" sample).1
  = mkAnalysis false medium block
      (Some "Message contains potentially inappropriate content") ∧
  (analyzeMessage 5400 5401 "hello" "u" sample).1 = mkAnalysis true low warn None ∧
  (analyzeMessage 9000 9001 "hello" "u" sample).1 = mkAnalysis true none allow None ∧
  getConnectionWarnings "u" (analyzeMessage 5400 5401 "hello" "u" sample).2 = 1%nat.
Proof. by vm_compute. Qed.

End ChildSafetyFacts.
